(** * maya-replicate-houdini-tool: the library and the dialog over a host interface

    The tool runs inside Maya and talks to the scene through [cmds] and
    [mel].  The host is a record of scene queries and scene edits; the
    functions of [lib.py] and the state handling of [app.py] are written over
    that record in a state-and-exception monad which also logs every edit
    issued. *)

From Stdlib Require Import String Ascii List Bool Arith Lia ZArith DecimalString.
Import ListNotations.
Open Scope string_scope.

(** ** Strings *)

(** The double quote character, as used by the MEL command of [update_asset]. *)
Definition dquote : string := String "034"%char EmptyString.

(** ["%i" % n] and ["{:d}".format(n)]. *)
Definition decimal (n : nat) : string := NilEmpty.string_of_uint (Nat.to_uint n).

Fixpoint zeros (n : nat) : string :=
  match n with
  | O => EmptyString
  | S k => String "0"%char (zeros k)
  end.

(** ["{:03d}".format(n)]: zero padded to width three, longer when needed. *)
Definition pad3 (n : nat) : string :=
  let d := decimal n in zeros (3 - String.length d) ++ d.

(** [a.split(":")[0]]: the text before the first colon. *)
Fixpoint before_colon (s : string) : string :=
  match s with
  | EmptyString => EmptyString
  | String c r => if Ascii.eqb c ":"%char then EmptyString else String c (before_colon r)
  end.

Definition is_lower (c : ascii) : bool :=
  ((97 <=? nat_of_ascii c) && (nat_of_ascii c <=? 122))%nat.
Definition is_upper (c : ascii) : bool :=
  ((65 <=? nat_of_ascii c) && (nat_of_ascii c <=? 90))%nat.
Definition to_upper (c : ascii) : ascii :=
  if is_lower c then ascii_of_nat (nat_of_ascii c - 32) else c.
Definition to_lower (c : ascii) : ascii :=
  if is_upper c then ascii_of_nat (nat_of_ascii c + 32) else c.

(** [str.title()] on ASCII text: the first letter of every run of letters in
    upper case, the others in lower case. *)
Fixpoint title_from (in_word : bool) (s : string) : string :=
  match s with
  | EmptyString => EmptyString
  | String c r =>
      if is_lower c || is_upper c
      then String (if in_word then to_lower c else to_upper c) (title_from true r)
      else String c (title_from false r)
  end.
Definition title (s : string) : string := title_from false s.

Definition str_in (x : string) (l : list string) : bool :=
  existsb (String.eqb x) l.

Lemma str_in_spec (x : string) (l : list string) : str_in x l = true <-> In x l.
Proof.
  unfold str_in. rewrite existsb_exists. split.
  - intros [y [Hy He]]. apply String.eqb_eq in He. now subst.
  - intros Hx. exists x. split; [assumption | apply String.eqb_refl].
Qed.

(** ** Exceptions and outcomes *)

Inductive Exn : Type :=
| AssertionError (msg : string)
| ValueError (msg : string)
| RuntimeError (msg : string)
| TypeError (msg : string)
| IndexError (msg : string).

Inductive Outcome (A : Type) : Type :=
| Ok (a : A)
| Raise (e : Exn).
Arguments Ok {A} a.
Arguments Raise {A} e.

Definition is_assertion (e : Exn) : bool :=
  match e with AssertionError _ => true | _ => false end.

(** ** The host interface: what [cmds], [mel] and [avalon.maya.lib] offer *)

(** The flags the source passes to [cmds.listConnections]. *)
Record LCFlags : Type := {
  fl_destination : bool;
  fl_type : option string;
  fl_exactType : bool;
  fl_shapes : bool;
  fl_connections : bool;
  fl_plugs : bool
}.

Definition no_flags : LCFlags :=
  {| fl_destination := false; fl_type := None; fl_exactType := false;
     fl_shapes := false; fl_connections := false; fl_plugs := false |}.

(** Scene queries.  [listConnections], [listRelatives] and [particle] answer
    [None] where Maya returns [None] (nothing found). *)
Inductive Query : Type :=
| QLs (selection : bool) (type : string)
| QListConnections (target : string) (flags : LCFlags)
| QListRelatives (node : string) (type : option string)
| QNodeType (node : string)
| QDynamicAttrList (node : string)
| QUniqueName (name format suffix : string).

Definition answer (q : Query) : Type :=
  match q with
  | QLs _ _ => list string
  | QListConnections _ _ => option (list string)
  | QListRelatives _ _ => option (list string)
  | QNodeType _ => string
  | QDynamicAttrList _ => option (list string)
  | QUniqueName _ _ _ => string
  end.

(** Scene edits, with the arguments the source gives them. *)
Inductive Edit : Type :=
| ECreateNode (type : string)
| EGroup (name : string)
| EDuplicate (node name : string)
| EConnectAttr (src dst : string) (force : bool)
| EDisconnectAttr (src dst : string)
| ESelectClear
| ESelect (node : string)
| EMelEval (cmd : string)
| EParent (child parent : string)
| EParticleInstancer (system name : string) (object : list string)
                     (kwargs : list (string * string))
| ECheckBoxGrp (name : string) (v1 : bool)
| ESetAttr (attr : string) (value : Z).

Definition result (e : Edit) : Type :=
  match e with
  | ECreateNode _ => string
  | EGroup _ => string
  | EDuplicate _ _ => list string
  | EParticleInstancer _ _ _ _ => string
  | _ => unit
  end.

(** A host: a type of scenes, the answers to queries on a scene and the
    effect of an edit, which may raise.  [set_order] is the interpreter's
    iteration order of a [set] built by inserting the given elements in
    turn. *)
Record Host : Type := {
  scene : Type;
  query : scene -> forall q : Query, answer q;
  exec : scene -> forall e : Edit, Outcome (result e) * scene;
  set_order : list string -> list string
}.

(** ** State, log and the monad *)

Record State (H : Host) : Type := {
  st_scene : scene H;
  st_log : list Edit
}.
Arguments st_scene {H} s.
Arguments st_log {H} s.

Definition M (H : Host) (A : Type) : Type := State H -> Outcome A * State H.

Section Monad.
Context {H : Host}.

Definition ret {A} (a : A) : M H A := fun st => (Ok a, st).
Definition raise {A} (e : Exn) : M H A := fun st => (Raise e, st).
Definition bind {A B} (m : M H A) (k : A -> M H B) : M H B :=
  fun st =>
    match m st with
    | (Ok a, st') => k a st'
    | (Raise e, st') => (Raise e, st')
    end.

(** A query leaves the scene and the log alone. *)
Definition ask (q : Query) : M H (answer q) :=
  fun st => (Ok (query H (st_scene st) q), st).

(** An edit is logged when it is issued, whether or not the host raises. *)
Definition edit (e : Edit) : M H (result e) :=
  fun st =>
    let '(o, sc) := exec H (st_scene st) e in
    (o, {| st_scene := sc; st_log := (st_log st ++ [e])%list |}).

(** [assert cond, msg] *)
Definition assert (cond : bool) (msg : string) : M H unit :=
  if cond then ret tt else raise (AssertionError msg).

(** [try: m finally: f] *)
Definition try_finally {A} (m : M H A) (f : M H unit) : M H A :=
  fun st =>
    let '(o, st1) := m st in
    match f st1 with
    | (Ok _, st2) => (o, st2)
    | (Raise e, st2) => (Raise e, st2)
    end.

(** [try: m except RuntimeError: pass] *)
Definition pass_runtime_error {A} (m : M H A) : M H unit :=
  fun st =>
    match m st with
    | (Ok _, st') => (Ok tt, st')
    | (Raise (RuntimeError _), st') => (Ok tt, st')
    | (Raise e, st') => (Raise e, st')
    end.

(** [for i, x in enumerate(l, start): body(i, x)] *)
Fixpoint for_enumerate {A} (start : nat) (l : list A) (body : nat -> A -> M H unit)
  : M H unit :=
  match l with
  | [] => ret tt
  | x :: r => bind (body start x) (fun _ => for_enumerate (S start) r body)
  end.

Definition for_each {A} (l : list A) (body : A -> M H unit) : M H unit :=
  for_enumerate 0 l (fun _ x => body x).

Definition run {A} (m : M H A) (sc : scene H) : Outcome A * State H :=
  m {| st_scene := sc; st_log := [] |}.
End Monad.

Notation "x <- m ;; k" := (bind m (fun x => k))
  (at level 61, m at next level, right associativity).
Notation "m ;;; k" := (bind m (fun _ => k))
  (at level 61, right associativity).

(** ** lib.py *)

Definition Connection : Type := (string * string)%type.

(** The values of an [asset_mapping]: the dict with the keys
    ["particle_system"] and ["hierarchy"], either of which may be absent. *)
Record AssetData : Type := {
  particle_system : option (list (string * option (list string)));
  hierarchy : option (list string)
}.

Definition none_not_iterable : Exn := TypeError "'NoneType' object is not iterable".
Definition none_no_contains : Exn :=
  TypeError "argument of type 'NoneType' is not iterable".
Definition none_no_len : Exn := TypeError "object of type 'NoneType' has no len()".
Definition index_out_of_range : Exn := IndexError "list index out of range".

(** [[hierarchy[i + 1], hierarchy[i]] for i in range(0, cons, 2)] *)
Fixpoint connection_pairs (hierarchy : list string) : Outcome (list Connection) :=
  match hierarchy with
  | [] => Ok []
  | [_] => Raise index_out_of_range
  | this :: other :: rest =>
      match connection_pairs rest with
      | Ok ps => Ok ((other, this) :: ps)
      | Raise e => Raise e
      end
  end.

(** [[x for x in l if pred(x, other)]] where [pred] tests membership in
    [other]: an empty [l] never evaluates the test, a [None] as [other]
    raises at the first element. *)
Definition filter_against (keep_members : bool) (l : list string)
    (other : option (list string)) : Outcome (list string) :=
  match l, other with
  | [], _ => Ok []
  | _ :: _, None => Raise none_no_contains
  | _ :: _, Some d =>
      Ok (filter (fun p => if keep_members then str_in p d else negb (str_in p d)) l)
  end.

Section Lib.
Context {H : Host}.

Definition by_type_dest (shapes : bool) (exact : bool) (type : string) : LCFlags :=
  {| fl_destination := true; fl_type := Some type; fl_exactType := exact;
     fl_shapes := shapes; fl_connections := false; fl_plugs := false |}.

Definition with_plug_pairs : LCFlags :=
  {| fl_destination := false; fl_type := None; fl_exactType := false;
     fl_shapes := false; fl_connections := true; fl_plugs := true |}.

Definition plugs_only : LCFlags :=
  {| fl_destination := false; fl_type := None; fl_exactType := false;
     fl_shapes := false; fl_connections := false; fl_plugs := true |}.

(** The inner loop of [maintain_connections]: the connections gathered so
    far, and the exception that stopped the loop if one did. *)
Fixpoint gather_instancers (instancers : list string) (acc : list Connection)
  : M H (list Connection * option Exn) :=
  match instancers with
  | [] => ret (acc, None)
  | instancer :: rest =>
      let attr := instancer ++ ".inputHierarchy" in
      hierarchy <- ask (QListConnections attr with_plug_pairs) ;;
      match hierarchy with
      | None => ret (acc, Some none_no_len)
      | Some h =>
          match connection_pairs h with
          | Raise e => ret (acc, Some e)
          | Ok ps => gather_instancers rest (acc ++ ps)%list
          end
      end
  end.

Fixpoint gather_nparticles (nparticles : list string) (acc : list Connection)
  : M H (list Connection * option Exn) :=
  match nparticles with
  | [] => ret (acc, None)
  | nparticle :: rest =>
      found <- ask (QListConnections nparticle (by_type_dest false false "instancer")) ;;
      match found with
      | None | Some [] => gather_nparticles rest acc
      | Some instancers =>
          r <- gather_instancers instancers acc ;;
          match r with
          | (acc', Some e) => ret (acc', Some e)
          | (acc', None) => gather_nparticles rest acc'
          end
      end
  end.

Definition disconnect_all (cs : list Connection) : M H unit :=
  for_each cs (fun c => edit (EDisconnectAttr (fst c) (snd c))).

Definition reconnect_all (cs : list Connection) : M H unit :=
  for_each cs (fun c => edit (EConnectAttr (fst c) (snd c) true)).

(** What the [try] block of [maintain_connections] gathers before it
    breaks connections. *)
Definition gather_connections (asset : string)
  : M H (list Connection * option Exn) :=
  connected_nparticles <-
    ask (QListConnections asset (by_type_dest true true "nParticle")) ;;
  descendents <- ask (QListRelatives asset None) ;;
  match connected_nparticles with
  | None => ret ([], Some none_not_iterable)
  | Some ps =>
      match filter_against false ps descendents with
      | Raise e => ret ([], Some e)
      | Ok non_descendents => gather_nparticles non_descendents []
      end
  end.

(** [with maintain_connections(asset): body] *)
Definition maintain_connections (asset : string) (body : M H unit) : M H unit :=
  r <- gather_connections asset ;;
  let instance_connections := fst r in
  try_finally
    (match snd r with
     | Some e => raise e
     | None => disconnect_all instance_connections ;;; body
     end)
    (reconnect_all instance_connections).

Definition get_houdini_assets (selected : bool) : M H (list string) :=
  if selected
  then ask (QLs true "houdiniAsset")
  else ask (QLs false "houdiniAsset").

(** The result is a [set]; it is kept as the list of its elements in
    iteration order. *)
Definition get_shape_transforms (houdini_asset : string) : M H (list string) :=
  ty <- ask (QNodeType houdini_asset) ;;
  if negb (String.eqb ty "houdiniAsset")
  then raise (ValueError "Wrong node type")
  else
    shapes <- ask (QListConnections houdini_asset (by_type_dest false false "mesh")) ;;
    match shapes with
    | None => raise none_not_iterable
    | Some l => ret (set_order H l)
    end.

Definition get_particle_system (houdini_asset : string) : M H string :=
  connections <-
    ask (QListConnections houdini_asset (by_type_dest true false "nParticle")) ;;
  descendents <- ask (QListRelatives houdini_asset (Some "nParticle")) ;;
  match connections with
  | None => raise none_not_iterable
  | Some l =>
      match filter_against true l descendents with
      | Raise e => raise e
      | Ok connections' =>
          let particle_systems := set_order H connections' in
          assert (Nat.eqb (length particle_systems) 1)
            ("This tool does not support multiple nParticles, got "
               ++ decimal (length particle_systems) ++ " nParticles") ;;;
          match particle_systems with
          | p :: _ => ret p
          | [] => raise index_out_of_range
          end
      end
  end.

Definition get_particle_attributes (node : string) : M H (option (list string)) :=
  ask (QDynamicAttrList node).

Definition get_instancers (houdini_asset : string) : M H (option (list string)) :=
  ask (QListConnections houdini_asset (by_type_dest false false "instancer")).

Definition get_input_hierarchy (instancer : string) : M H (option (list string)) :=
  ty <- ask (QNodeType instancer) ;;
  if negb (String.eqb ty "instancer")
  then raise (ValueError "Given node is not of type 'instancer'")
  else ask (QListConnections (instancer ++ ".inputHierarchy") no_flags).

(** [for inst in instancers: hierarchy.update(get_input_hierarchy(inst))],
    as the sequence of insertions into the set. *)
Fixpoint collect_hierarchy (instancers : list string) (inserted : list string)
  : M H (list string) :=
  match instancers with
  | [] => ret inserted
  | inst :: rest =>
      h <- get_input_hierarchy inst ;;
      match h with
      | None => raise none_not_iterable
      | Some l => collect_hierarchy rest (inserted ++ l)%list
      end
  end.

Definition map_houdini_asset (asset : string) : M H (list (string * AssetData)) :=
  instancers <- get_instancers asset ;;
  match instancers with
  | None => raise none_not_iterable
  | Some l =>
      inserted <- collect_hierarchy l [] ;;
      particle_node <- get_particle_system asset ;;
      attributes <- get_particle_attributes particle_node ;;
      ret [(asset, {| particle_system := Some [(particle_node, attributes)];
                      hierarchy := Some (set_order H inserted) |})]
  end.
End Lib.

Section Replicate.
Context {H : Host}.

Definition part_name (name : string) (i : nat) : string :=
  name ++ pad3 i ++ "_PART".
Definition inst_name (name : string) (i : nat) : string :=
  name ++ pad3 i ++ "_INST".
Definition cache_array_data (node : string) : string := node ++ ".cacheArrayData".
Definition assign_solver (nucleus : string) : string := "assignNSolver " ++ nucleus.

(** The nucleus the call works with: a new one when the scene has none. *)
Definition pick_nucleus : M H string :=
  nuclea <- ask (QLs false "nucleus") ;;
  match nuclea with
  | [] => edit (ECreateNode "nucleus")
  | first :: _ => ret first
  end.

(** The body of the loop of [replicate]; [name] already ends in the
    underscore. *)
(** [cmds.particleInstancer(new_system, name=..., object=..., **kwargs)]: a
    key of [kwargs] that the call also gives by keyword makes Python raise
    a [TypeError] before the host is called.  The keywords given in the call
    are looked up in [kwargs] from the last to the first. *)
Definition has_key (k : string) (kwargs : list (string * string)) : bool :=
  existsb (fun kv => String.eqb (fst kv) k) kwargs.

Definition multiple_values (k : string) : Exn :=
  TypeError ("particleInstancer() got multiple values for keyword argument '"
               ++ k ++ "'").

Definition keyword_clash (kwargs : list (string * string)) : option Exn :=
  if has_key "object" kwargs then Some (multiple_values "object")
  else if has_key "name" kwargs then Some (multiple_values "name")
  else None.

Definition replicate_asset (name nucleus asset_group : string)
    (attribute_mapping : list (string * string))
    (i : nat) (entry : string * AssetData) : M H unit :=
  let '(asset, mapping) := entry in
  match particle_system mapping with
  | None =>
      raise (RuntimeError ("Incomplete mapping of asset '" ++ asset
                             ++ "', missing particle_system"))
  | Some particle_data =>
      match particle_data with
      | [] => raise index_out_of_range
      | (particle, _) :: _ =>
          found <- ask (QListConnections (cache_array_data particle) plugs_only) ;;
          let data_attrs := match found with Some l => l | None => [] end in
          assert (Nat.eqb (length data_attrs) 1) "This is a bug" ;;;
          match data_attrs with
          | [] => raise index_out_of_range
          | data_attr :: _ =>
              new_systems <- edit (EDuplicate particle (part_name name i)) ;;
              assert (Nat.eqb (length new_systems) 1)
                ("This is a bug, duplicated '" ++ decimal (length new_systems)
                   ++ "' nParticle nodes") ;;;
              match new_systems with
              | [] => raise index_out_of_range
              | new_system :: _ =>
                  edit (EConnectAttr data_attr (cache_array_data new_system) false) ;;;
                  edit ESelectClear ;;;
                  edit (ESelect new_system) ;;;
                  edit (EMelEval (assign_solver nucleus)) ;;;
                  edit (EParent new_system asset_group) ;;;
                  let hierarchy :=
                    match hierarchy mapping with Some h => h | None => [] end in
                  match keyword_clash attribute_mapping with
                  | Some e => raise e
                  | None =>
                      new_instancer <-
                        edit (EParticleInstancer new_system (inst_name name i)
                                hierarchy attribute_mapping) ;;
                      edit (ECheckBoxGrp "AEdisplayAllTypes" true) ;;;
                      edit (ESetAttr (new_instancer ++ ".rotationAngleUnits") 1%Z) ;;;
                      edit (ESetAttr (new_instancer ++ ".rotationOrder") 0%Z) ;;;
                      pass_runtime_error (edit (EParent new_instancer asset_group))
                  end
              end
          end
      end
  end.

(** [if not attribute_mapping: attribute_mapping = {}] *)
Definition mapping_or_empty (attribute_mapping : option (list (string * string)))
  : list (string * string) :=
  match attribute_mapping with
  | Some (kv :: more) => kv :: more
  | _ => []
  end.

Definition replicate (name : string) (asset_mapping : list (string * AssetData))
    (attribute_mapping : option (list (string * string))) : M H bool :=
  let attribute_mapping := mapping_or_empty attribute_mapping in
  nucleus <- pick_nucleus ;;
  let name := name ++ "_" in
  let suffix := "_GRP" in
  unique_name <- ask (QUniqueName name "%03d" suffix) ;;
  let unique_name := unique_name ++ suffix in
  asset_group <- edit (EGroup unique_name) ;;
  for_enumerate 0 asset_mapping
    (replicate_asset name nucleus asset_group attribute_mapping) ;;;
  ret true.

Definition sync_command (asset : string) : string :=
  "houdiniEngine_syncAsset " ++ dquote ++ asset ++ dquote ++ ";".

Definition input_hierarchy_at (instancer : string) (idx : nat) : string :=
  instancer ++ ".inputHierarchy[" ++ decimal idx ++ "]".

(** [logging.info] touches neither the scene nor the result and is left
    out. *)
Definition update_asset (asset : string) : M H bool :=
  before_update <- get_shape_transforms asset ;;
  asset_hierarchy <- ask (QListRelatives asset None) ;;
  match before_update with
  | [] => raise index_out_of_range
  | first :: _ =>
      found <- ask (QListConnections first (by_type_dest false false "instancer")) ;;
      let instancers := match found with Some l => l | None => [] end in
      match filter_against false instancers asset_hierarchy with
      | Raise e => raise e
      | Ok instancers =>
          assert (negb (Nat.eqb (length instancers) 0)) "This is a bug" ;;;
          match instancers with
          | [] => raise index_out_of_range
          | instancer :: _ =>
              maintain_connections asset (edit (EMelEval (sync_command asset))) ;;;
              after_update <- get_shape_transforms asset ;;
              let count := length before_update in
              let new_shapes :=
                set_order H
                  (filter (fun s => negb (str_in s before_update)) after_update) in
              for_enumerate 1 new_shapes
                (fun i shape =>
                   let idx := count + i in
                   edit (EConnectAttr (shape ++ ".matrix")
                           (input_hierarchy_at instancer idx) false)) ;;;
              ret true
          end
      end
  end.
End Replicate.

(** ** app.py *)

Definition DEFAULT_TARGETS : list string :=
  [ "position"; "rampPosition"; "worldPosition";
    "velocity"; "rampVelocity"; "worldVelocity";
    "Acceleration"; "rampAcceleration"; "mass" ].

(** [INSTANCER_PP_ATTRIBUTES], by section. *)
Definition INSTANCER_PP_ATTRIBUTES (section : string) : list string :=
  if String.eqb section "general"
  then [ "position"; "scale"; "shear"; "objectIndex"; "visibility" ]
  else if String.eqb section "rotation"
  then [ "rotation"; "aimDirection"; "aimPosition"; "aimAxis"; "aimUpAxis";
         "aimWorldUp" ]
  else [].

(** An editable combo box: its items and the text of its line edit. *)
Record SearchComboBox : Type := {
  items : list string;
  currentText : string
}.

(** [clear()], then the placeholder, then the items; the box shows its first
    item, the placeholder. *)
Definition populate (new_items : list string) : SearchComboBox :=
  {| items := EmptyString :: new_items; currentText := EmptyString |}.

Definition get_valid_value (box : SearchComboBox) : option string :=
  let text := currentText box in
  if str_in text (items box) then Some text else None.

(** The group box [_create_mapper] builds for a section. *)
Record SectionBox : Type := {
  objectName : string;
  box_title : string;
  rows : list (string * SearchComboBox)
}.

(** An item of the mapping layout; [deleteLater] has been called on the
    widget when [delete_later] is set. *)
Record LayoutItem : Type := {
  widget : SectionBox;
  delete_later : bool
}.

Record App : Type := {
  from_selection : bool;
  name_field : string;
  mapping_layout : list LayoutItem;
  mapping_data : list (string * SearchComboBox);
  selection : list string
}.

(** [d[k] = v] on a dict kept as an association list with distinct keys. *)
Fixpoint dict_set {V} (k : string) (v : V) (d : list (string * V)) : list (string * V) :=
  match d with
  | [] => [(k, v)]
  | (k', v') :: r => if String.eqb k k' then (k, v) :: r else (k', v') :: dict_set k v r
  end.

Definition with_mapping_data (app : App) (d : list (string * SearchComboBox)) : App :=
  {| from_selection := from_selection app; name_field := name_field app;
     mapping_layout := mapping_layout app; mapping_data := d;
     selection := selection app |}.

Definition with_mapping_layout (app : App) (l : list LayoutItem) : App :=
  {| from_selection := from_selection app; name_field := name_field app;
     mapping_layout := l; mapping_data := mapping_data app;
     selection := selection app |}.

Definition with_selection (app : App) (assets : list string) : App :=
  {| from_selection := from_selection app; name_field := name_field app;
     mapping_layout := mapping_layout app; mapping_data := mapping_data app;
     selection := assets |}.

(** The loop of [_create_mapper]: a row and a [mapping_data] entry per
    source. *)
Fixpoint mapper_rows (sources targets : list string)
    (data : list (string * SearchComboBox))
  : list (string * SearchComboBox) * list (string * SearchComboBox) :=
  match sources with
  | [] => ([], data)
  | source :: rest =>
      let target_picker := populate targets in
      let '(rs, data') := mapper_rows rest targets (dict_set source target_picker data) in
      ((source, target_picker) :: rs, data')
  end.

Definition _create_mapper (app : App) (section : string) (sources targets : list string)
  : SectionBox * App :=
  let '(rs, data) := mapper_rows sources targets (mapping_data app) in
  ({| objectName := section; box_title := title section; rows := rs |},
   with_mapping_data app data).

Definition addWidget (app : App) (box : SectionBox) : App :=
  with_mapping_layout app
    (mapping_layout app ++ [{| widget := box; delete_later := false |}])%list.

(** The ignore test of [process]: the valid value is neither the empty
    string nor [None]. *)
Definition not_ignored (v : option string) : bool :=
  match v with
  | None => false
  | Some text => negb (String.eqb text EmptyString)
  end.

(** The dict comprehension of [process]. *)
Fixpoint attribute_mapping (data : list (string * SearchComboBox))
  : list (string * string) :=
  match data with
  | [] => []
  | (s, p) :: rest =>
      if not_ignored (get_valid_value p)
      then match get_valid_value p with
           | Some text => (s, text) :: attribute_mapping rest
           | None => (s, "None") :: attribute_mapping rest
           end
      else attribute_mapping rest
  end.

Section AppOps.
Context {H : Host}.

(** The methods of [App] that change the dialog keep the changes made
    before an exception, so they return the dialog beside the outcome. *)
Definition AppM (A : Type) : Type := App -> State H -> Outcome A * App * State H.

(** The loop of [get_settings] over the assets, as the insertions into
    [targets]. *)
Fixpoint collect_targets (assets : list string) (inserted : list string)
  : M H (list string) :=
  match assets with
  | [] => ret inserted
  | asset :: rest =>
      particle <- get_particle_system asset ;;
      attrs <- get_particle_attributes particle ;;
      match attrs with
      | None => raise none_not_iterable
      | Some l => collect_targets rest (inserted ++ map before_colon l)%list
      end
  end.

Definition add_section (targets : list string) (app : App) (section : string) : App :=
  let attributes := INSTANCER_PP_ATTRIBUTES section in
  let '(box, app') := _create_mapper app section attributes targets in
  addWidget app' box.

Definition get_settings : AppM unit :=
  fun app st =>
    match get_houdini_assets (from_selection app) st with
    | (Raise e, st1) => (Raise e, app, st1)
    | (Ok assets, st1) =>
        let app1 := with_selection app assets in
        match assets with
        | [] => (Ok tt, app1, st1)
        | _ :: _ =>
            match collect_targets assets [] st1 with
            | (Raise e, st2) => (Raise e, app1, st2)
            | (Ok inserted, st2) =>
                let targets := (DEFAULT_TARGETS ++ set_order H inserted)%list in
                (Ok tt, fold_left (add_section targets) ["general"; "rotation"] app1,
                 st2)
            end
        end
    end.

Definition schedule_delete (it : LayoutItem) : LayoutItem :=
  {| widget := widget it; delete_later := true |}.

Definition refresh : AppM unit :=
  fun app st =>
    let app1 := with_mapping_layout app (map schedule_delete (mapping_layout app)) in
    let app2 := with_mapping_data app1 [] in
    get_settings app2 st.

Definition process (app : App) : M H unit :=
  let name := name_field app in
  if String.eqb name EmptyString
  then raise (RuntimeError "Name is a required field")
  else
    let mapping := attribute_mapping (mapping_data app) in
    for_each (selection app)
      (fun asset =>
         asset_mapping <- map_houdini_asset asset ;;
         replicate name asset_mapping (Some mapping) ;;;
         ret tt).

Definition update_all : M H unit :=
  assets <- get_houdini_assets false ;;
  for_each assets (fun asset => update_asset asset ;;; ret tt).

Definition update_selected : M H unit :=
  assets <- get_houdini_assets true ;;
  for_each assets (fun asset => update_asset asset ;;; ret tt).

(** The widgets left in the layout once the event loop has deleted the
    scheduled ones. *)
Definition live_widgets (app : App) : list SectionBox :=
  map widget (filter (fun it => negb (delete_later it)) (mapping_layout app)).
End AppOps.

(** ** A small host to run the functions on

    Nodes with a type, a parent relation and plug-to-plug connections.  An
    empty answer of [listConnections], [listRelatives] and [particle] is
    [None], as in Maya. *)
Module Toy.

Record Scene : Type := {
  nodes : list (string * string);
  parents : list (string * string);
  conns : list Connection;
  dynamic_attrs : list (string * list string);
  selected : list string
}.

(** The node of a plug: the text before the first dot. *)
Fixpoint node_of (plug : string) : string :=
  match plug with
  | EmptyString => EmptyString
  | String c r => if Ascii.eqb c "."%char then EmptyString else String c (node_of r)
  end.

Fixpoint lookup {V} (k : string) (d : list (string * V)) : option V :=
  match d with
  | [] => None
  | (k', v) :: r => if String.eqb k k' then Some v else lookup k r
  end.

Definition type_of (sc : Scene) (node : string) : string :=
  match lookup node (nodes sc) with Some t => t | None => EmptyString end.

Definition nonempty (l : list string) : option (list string) :=
  match l with [] => None | _ => Some l end.

Definition conn_eqb (a b : Connection) : bool :=
  String.eqb (fst a) (fst b) && String.eqb (snd a) (snd b).

Definition has_type (sc : Scene) (type : option string) (node : string) : bool :=
  match type with
  | None => true
  | Some t => String.eqb (type_of sc node) t
  end.

Definition list_connections (sc : Scene) (target : string) (fl : LCFlags)
  : option (list string) :=
  if fl_connections fl && fl_plugs fl
  then nonempty (flat_map (fun c => if prefix target (snd c)
                                    then [snd c; fst c] else []) (conns sc))
  else if fl_plugs fl
  then nonempty (flat_map (fun c => if prefix target (snd c)
                                    then [fst c] else []) (conns sc))
  else nonempty
         (filter (has_type sc (fl_type fl))
            (flat_map (fun c =>
                         (if prefix target (fst c) then [node_of (snd c)] else [])
                         ++ (if prefix target (snd c) then [node_of (fst c)] else []))%list
               (conns sc))).

(** The descendants of a node, to the given depth. *)
Fixpoint descendants (depth : nat) (sc : Scene) (node : string) : list string :=
  match depth with
  | O => []
  | S d =>
      flat_map (fun pc => if String.eqb (fst pc) node
                          then snd pc :: descendants d sc (snd pc) else [])
        (parents sc)
  end.

Definition query (sc : Scene) (q : Query) : answer q :=
  match q as q0 return answer q0 with
  | QLs selection type =>
      filter (fun n => negb selection || str_in n (selected sc))
        (map fst (filter (fun n => String.eqb (snd n) type) (nodes sc)))
  | QListConnections target fl => list_connections sc target fl
  | QListRelatives node type =>
      nonempty (filter (has_type sc type)
                  (descendants (length (parents sc)) sc node))
  | QNodeType node => type_of sc node
  | QDynamicAttrList node => lookup node (dynamic_attrs sc)
  | QUniqueName name _ _ => name ++ "001"
  end.

Definition add_node (sc : Scene) (name type : string) : Scene :=
  {| nodes := (nodes sc ++ [(name, type)])%list; parents := parents sc;
     conns := conns sc; dynamic_attrs := dynamic_attrs sc;
     selected := selected sc |}.

Definition with_conns (sc : Scene) (cs : list Connection) : Scene :=
  {| nodes := nodes sc; parents := parents sc; conns := cs;
     dynamic_attrs := dynamic_attrs sc; selected := selected sc |}.

Definition connected (sc : Scene) (c : Connection) : bool :=
  existsb (conn_eqb c) (conns sc).

Definition without (c : Connection) (cs : list Connection) : list Connection :=
  filter (fun c' => negb (conn_eqb c c')) cs.

Definition into (dst : string) (cs : list Connection) : list Connection :=
  filter (fun c' => String.eqb (snd c') dst) cs.

Definition not_into (dst : string) (cs : list Connection) : list Connection :=
  filter (fun c' => negb (String.eqb (snd c') dst)) cs.

Definition exec (sc : Scene) (e : Edit) : Outcome (result e) * Scene :=
  match e as e0 return Outcome (result e0) * Scene with
  | ECreateNode type => (Ok (type ++ "1"), add_node sc (type ++ "1") type)
  | EGroup name => (Ok name, add_node sc name "transform")
  | EDuplicate node name => (Ok [name], add_node sc name (type_of sc node))
  | EConnectAttr src dst force =>
      if force
      then (Ok tt, with_conns sc (not_into dst (conns sc) ++ [(src, dst)])%list)
      else if connected sc (src, dst) then (Ok tt, sc)
      else match into dst (conns sc) with
           | [] => (Ok tt, with_conns sc (conns sc ++ [(src, dst)])%list)
           | _ :: _ => (Raise (RuntimeError "Connection not made"), sc)
           end
  | EDisconnectAttr src dst =>
      if connected sc (src, dst)
      then (Ok tt, with_conns sc (without (src, dst) (conns sc)))
      else (Raise (RuntimeError "There is no connection to disconnect"), sc)
  | ESelectClear => (Ok tt, sc)
  | ESelect _ => (Ok tt, sc)
  | EMelEval _ => (Ok tt, sc)
  | EParent _ _ => (Ok tt, sc)
  | EParticleInstancer _ name _ _ => (Ok name, add_node sc name "instancer")
  | ECheckBoxGrp _ _ => (Ok tt, sc)
  | ESetAttr _ _ => (Ok tt, sc)
  end.

(** Sets iterate in order of first insertion here. *)
Fixpoint dedup (seen l : list string) : list string :=
  match l with
  | [] => []
  | x :: r => if str_in x seen then dedup seen r else x :: dedup (x :: seen) r
  end.

Definition host : Host :=
  Build_Host Scene query exec (dedup []).

(** A Houdini asset with one particle system below it, two meshes and an
    instancer fed by both; a second particle system outside the asset
    drives the replica instancer; the asset and one mesh are selected.  [bare1] is an asset
    without particles,
    [asset2] one with two particle systems and a mesh that feeds no
    instancer. *)
Definition rig : Scene :=
  {| nodes := [ ("asset1", "houdiniAsset"); ("part1", "nParticle");
                ("meshA", "mesh"); ("meshB", "mesh"); ("inst1", "instancer");
                ("copy1", "nParticle"); ("inst2", "instancer");
                ("bare1", "houdiniAsset"); ("cube1", "mesh");
                ("asset2", "houdiniAsset"); ("partA", "nParticle");
                ("partB", "nParticle"); ("meshC", "mesh") ];
     parents := [ ("asset1", "part1"); ("asset1", "meshA"); ("asset1", "meshB");
                  ("asset1", "inst1"); ("asset2", "partA"); ("asset2", "partB");
                  ("asset2", "meshC") ];
     conns := [ ("asset1.outputParticle", "part1.cacheArrayData");
                ("asset1.outputMeshA", "meshA.inMesh");
                ("asset1.outputMeshB", "meshB.inMesh");
                ("asset1.outputInstancer", "inst1.inputPoints");
                ("meshA.matrix", "inst1.inputHierarchy[0]");
                ("meshB.matrix", "inst1.inputHierarchy[1]");
                ("asset1.outputParticle", "copy1.cacheArrayData");
                ("copy1.instanceData", "inst2.inputPoints");
                ("meshA.matrix", "inst2.inputHierarchy[0]");
                ("meshB.matrix", "inst2.inputHierarchy[1]");
                ("asset2.outputParticleA", "partA.cacheArrayData");
                ("asset2.outputParticleB", "partB.cacheArrayData");
                ("asset2.outputMesh", "meshC.inMesh") ];
     dynamic_attrs := [ ("part1", ["radiusPP:float"; "index:int"]) ];
     selected := [ "asset1"; "meshA" ] |}.

End Toy.

(** ** Theorems *)

(** *** Stepping through the monad *)

Section Steps.
Context {H : Host}.

Lemma bind_ok {A B} (m : M H A) (k : A -> M H B) (st st1 : State H) (a : A) :
  m st = (Ok a, st1) -> bind m k st = k a st1.
Proof. intros E. unfold bind. now rewrite E. Qed.

Lemma bind_raise {A B} (m : M H A) (k : A -> M H B) (st st1 : State H) (e : Exn) :
  m st = (Raise e, st1) -> bind m k st = (Raise e, st1).
Proof. intros E. unfold bind. now rewrite E. Qed.

Lemma bind_ask {B} (q : Query) (k : answer q -> M H B) (st : State H) :
  bind (ask q) k st = k (query H (st_scene st) q) st.
Proof. reflexivity. Qed.

Lemma bind_ret {A B} (a : A) (k : A -> M H B) (st : State H) :
  bind (ret a) k st = k a st.
Proof. reflexivity. Qed.

Lemma bind_raise_now {A B} (e : Exn) (k : A -> M H B) (st : State H) :
  bind (raise e) k st = (Raise e, st).
Proof. reflexivity. Qed.
End Steps.

(** *** get_houdini_assets *)

(** The spec's reading of [get_houdini_assets]: the answer of the host to
    [cmds.ls] for the type [houdiniAsset], restricted to the selection when
    asked, and nothing done to it. *)
Definition host_houdini_assets {H : Host} (sc : scene H) (selected : bool) : list string :=
  if selected
  then query H sc (QLs true "houdiniAsset")
  else query H sc (QLs false "houdiniAsset").

Lemma get_houdini_assets_run {H : Host} (selected : bool) (st : State H) :
  get_houdini_assets selected st = (Ok (host_houdini_assets (st_scene st) selected), st).
Proof.
  unfold get_houdini_assets, host_houdini_assets. destruct selected; reflexivity.
Qed.

(** C5: [get_houdini_assets selected] returns the host's [ls] answer for the
    type [houdiniAsset] as it is (with the selection flag exactly when
    [selected] holds), never raises, and leaves scene and log untouched. *)
Theorem get_houdini_assets_is_host_answer :
  forall (H : Host) (selected : bool) (st : State H),
    get_houdini_assets selected st = (Ok (host_houdini_assets (st_scene st) selected), st).
Proof.
  intros H selected st. apply get_houdini_assets_run.
Qed.

(** *** get_particle_system *)

Section ParticleSystem.
Context {H : Host}.

(** With both host answers present, the function asserts that the
    connected nParticles below the asset are exactly one, and returns
    it. *)
Lemma get_particle_system_lists (asset : string) (st : State H)
    (connections descendents : list string) :
  query H (st_scene st) (QListConnections asset (by_type_dest true false "nParticle"))
    = Some connections ->
  query H (st_scene st) (QListRelatives asset (Some "nParticle")) = Some descendents ->
  let found := set_order H (filter (fun i => str_in i descendents) connections) in
  get_particle_system asset st =
    match found with
    | [p] => (Ok p, st)
    | _ => (Raise (AssertionError
                     ("This tool does not support multiple nParticles, got "
                        ++ decimal (length found) ++ " nParticles")), st)
    end.
Proof.
  intros Hc Hd found. unfold get_particle_system.
  rewrite bind_ask, bind_ask, Hc, Hd.
  assert (Hf : filter_against true connections (Some descendents)
               = Ok (filter (fun i => str_in i descendents) connections)).
  { destruct connections; reflexivity. }
  rewrite Hf. fold found.
  destruct found as [|p [|q r]]; reflexivity.
Qed.

(** With no nParticle connected the host answers [None], and iterating it
    is a [TypeError]. *)
Lemma get_particle_system_none (asset : string) (st : State H) :
  query H (st_scene st) (QListConnections asset (by_type_dest true false "nParticle"))
    = None ->
  get_particle_system asset st = (Raise none_not_iterable, st).
Proof.
  intros Hc. unfold get_particle_system. rewrite bind_ask, bind_ask, Hc. reflexivity.
Qed.
End ParticleSystem.

(** C2: on the asset [bare1] of the rig, which has no nParticle at all, the
    host answers [None] to the connection query and [get_particle_system]
    raises a [TypeError], not the assertion error. *)
Theorem get_particle_system_zero_is_type_error :
  query Toy.host Toy.rig (QListConnections "bare1" (by_type_dest true false "nParticle"))
    = None
  /\ fst (run (H := Toy.host) (get_particle_system "bare1") Toy.rig)
     = Raise (TypeError "'NoneType' object is not iterable")
  /\ is_assertion (TypeError "'NoneType' object is not iterable") = false.
Proof. repeat split. Qed.

(** *** The guards of the operations *)

(** The claim that a wrong node type given to [get_shape_transforms] is
    reported by an assert. *)
Definition shape_transforms_guard_is_assert : Prop :=
  forall (H : Host) (asset : string) (st : State H),
    query H (st_scene st) (QNodeType asset) <> "houdiniAsset" ->
    exists msg, fst (get_shape_transforms asset st) = Raise (AssertionError msg).

(** C3, as stated, fails: the mesh [cube1] given to [get_shape_transforms]
    is reported by a [ValueError]. *)
Lemma guards_are_not_all_asserts : ~ shape_transforms_guard_is_assert.
Proof.
  intros Hall.
  destruct (Hall Toy.host "cube1" (Build_State Toy.host Toy.rig []))
    as [msg Hmsg].
  - discriminate.
  - discriminate Hmsg.
Qed.

Section Guards.
Context {H : Host}.

Lemma neq_eqb_false (a b : string) : a <> b -> String.eqb a b = false.
Proof. intros Hn. now apply String.eqb_neq. Qed.

Lemma get_shape_transforms_wrong_type (asset : string) (st : State H) :
  query H (st_scene st) (QNodeType asset) <> "houdiniAsset" ->
  get_shape_transforms asset st = (Raise (ValueError "Wrong node type"), st).
Proof.
  intros Hty. unfold get_shape_transforms. rewrite bind_ask.
  now rewrite (neq_eqb_false _ _ Hty).
Qed.

Lemma get_shape_transforms_run (asset : string) (st : State H) (shapes : list string) :
  query H (st_scene st) (QNodeType asset) = "houdiniAsset" ->
  query H (st_scene st) (QListConnections asset (by_type_dest false false "mesh"))
  = Some shapes ->
  get_shape_transforms asset st = (Ok (set_order H shapes), st).
Proof.
  intros Hty Hshapes. unfold get_shape_transforms.
  rewrite bind_ask, Hty, String.eqb_refl. cbn [negb].
  rewrite bind_ask, Hshapes. reflexivity.
Qed.

(** C3, amended: a wrong node type is reported by an explicitly raised
    [ValueError] in [get_shape_transforms] and [get_input_hierarchy], a
    missing [particle_system] by an explicitly raised [RuntimeError] in
    [replicate]; the counting guards are asserts: exactly one plug into
    [cacheArrayData] in [replicate], exactly one nParticle in
    [get_particle_system], at least one instancer outside the asset in
    [update_asset], which reports a wrong node type through
    [get_shape_transforms]. *)
Theorem guards_by_kind :
  forall (st : State H),
    (forall asset,
        query H (st_scene st) (QNodeType asset) <> "houdiniAsset" ->
        get_shape_transforms asset st = (Raise (ValueError "Wrong node type"), st))
    /\ (forall instancer,
           query H (st_scene st) (QNodeType instancer) <> "instancer" ->
           get_input_hierarchy instancer st
           = (Raise (ValueError "Given node is not of type 'instancer'"), st))
    /\ (forall name nucleus group attrs i asset mapping,
           particle_system mapping = None ->
           replicate_asset name nucleus group attrs i (asset, mapping) st
           = (Raise (RuntimeError ("Incomplete mapping of asset '" ++ asset
                                     ++ "', missing particle_system")), st))
    /\ (forall name nucleus group attrs i asset mapping particle attributes more,
           particle_system mapping = Some ((particle, attributes) :: more) ->
           (forall plug, query H (st_scene st)
                           (QListConnections (cache_array_data particle) plugs_only)
                         <> Some [plug]) ->
           replicate_asset name nucleus group attrs i (asset, mapping) st
           = (Raise (AssertionError "This is a bug"), st))
    /\ (forall asset connections descendents,
           query H (st_scene st)
             (QListConnections asset (by_type_dest true false "nParticle"))
           = Some connections ->
           query H (st_scene st) (QListRelatives asset (Some "nParticle"))
           = Some descendents ->
           length (set_order H (filter (fun i => str_in i descendents) connections))
           <> 1 ->
           exists msg, get_particle_system asset st = (Raise (AssertionError msg), st))
    /\ (forall asset,
           query H (st_scene st) (QNodeType asset) <> "houdiniAsset" ->
           update_asset asset st = (Raise (ValueError "Wrong node type"), st))
    /\ (forall asset shapes first others,
           query H (st_scene st) (QNodeType asset) = "houdiniAsset" ->
           query H (st_scene st) (QListConnections asset (by_type_dest false false "mesh"))
           = Some shapes ->
           set_order H shapes = first :: others ->
           filter_against false
             (match query H (st_scene st)
                      (QListConnections first (by_type_dest false false "instancer")) with
              | Some l => l
              | None => []
              end)
             (query H (st_scene st) (QListRelatives asset None))
           = Ok [] ->
           update_asset asset st = (Raise (AssertionError "This is a bug"), st)).
Proof.
  intros st. repeat split.
  - intros asset Hty. unfold get_shape_transforms. rewrite bind_ask.
    now rewrite (neq_eqb_false _ _ Hty).
  - intros instancer Hty. unfold get_input_hierarchy. rewrite bind_ask.
    now rewrite (neq_eqb_false _ _ Hty).
  - intros name nucleus group attrs i asset mapping Hp.
    unfold replicate_asset. now rewrite Hp.
  - intros name nucleus group attrs i asset mapping particle attributes more Hp Hq.
    unfold replicate_asset. rewrite Hp, bind_ask.
    destruct (query H (st_scene st)
                (QListConnections (cache_array_data particle) plugs_only))
      as [[|plug [|plug' rest]]|]; try reflexivity.
    now elim (Hq plug).
  - intros asset connections descendents Hc Hd Hlen.
    rewrite (get_particle_system_lists asset st connections descendents Hc Hd).
    cbv zeta.
    destruct (set_order H (filter (fun i => str_in i descendents) connections))
      as [|p [|q r]]; [eexists; reflexivity | | eexists; reflexivity].
    now elim Hlen.
  - intros asset Hty. unfold update_asset.
    now rewrite (bind_raise _ _ _ _ _ (get_shape_transforms_wrong_type asset st Hty)).
  - intros asset shapes first others Hty Hshapes Hfirst Hnone.
    unfold update_asset.
    rewrite (bind_ok _ _ _ _ _ (get_shape_transforms_run asset st shapes Hty Hshapes)).
    rewrite bind_ask, Hfirst, bind_ask, Hnone. reflexivity.
Qed.
End Guards.


Definition rig_state : State Toy.host := Build_State Toy.host Toy.rig [].

Lemma guards_by_kind_witness :
  get_shape_transforms "cube1" rig_state = (Raise (ValueError "Wrong node type"), rig_state)
  /\ get_input_hierarchy "meshA" rig_state
     = (Raise (ValueError "Given node is not of type 'instancer'"), rig_state)
  /\ replicate_asset "foo_" "nucleus1" "foo_001_GRP" [] 0
       ("asset1", {| particle_system := None; hierarchy := None |}) rig_state
     = (Raise (RuntimeError "Incomplete mapping of asset 'asset1', missing particle_system"),
        rig_state)
  /\ replicate_asset "foo_" "nucleus1" "foo_001_GRP" [] 0
       ("asset1", {| particle_system := Some [("meshA", None)]; hierarchy := None |})
       rig_state
     = (Raise (AssertionError "This is a bug"), rig_state)
  /\ (exists msg,
        get_particle_system "asset2" rig_state = (Raise (AssertionError msg), rig_state))
  /\ update_asset "cube1" rig_state = (Raise (ValueError "Wrong node type"), rig_state)
  /\ update_asset "asset2" rig_state = (Raise (AssertionError "This is a bug"), rig_state).
Proof.
  destruct (guards_by_kind (H := Toy.host) rig_state)
    as (G1 & G2 & G3 & G4 & G5 & G6 & G7).
  split; [apply G1; discriminate |].
  split; [apply G2; discriminate |].
  split; [apply (G3 "foo_" "nucleus1" "foo_001_GRP" [] 0 "asset1"); reflexivity |].
  split.
  { apply (G4 "foo_" "nucleus1" "foo_001_GRP" [] 0 "asset1" _ "meshA" None []).
    - reflexivity.
    - intros plug. discriminate. }
  split.
  { apply (G5 "asset2" ["partA"; "partB"] ["partA"; "partB"]).
    - reflexivity.
    - reflexivity.
    - vm_compute. discriminate. }
  split; [apply G6; discriminate |].
  apply (G7 "asset2" ["meshC"] "meshC" []); reflexivity.
Defined.

(** *** The dialog: the name and the attribute mapping *)

(** C9: with an empty name field [process] raises
    [RuntimeError("Name is a required field")] at once: the state comes back
    as it was, so the scene is unchanged and no edit has been issued. *)
Theorem process_requires_name :
  forall (H : Host) (app : App) (st : State H),
    name_field app = EmptyString ->
    process app st = (Raise (RuntimeError "Name is a required field"), st).
Proof.
  intros H app st Hname. unfold process. rewrite Hname. reflexivity.
Qed.

Definition unnamed_dialog : App :=
  {| from_selection := true; name_field := EmptyString; mapping_layout := [];
     mapping_data := [("scale", {| items := [EmptyString; "radiusPP"];
                                   currentText := "radiusPP" |})];
     selection := ["asset1"] |}.

Lemma process_requires_name_witness :
  process unnamed_dialog rig_state
  = (Raise (RuntimeError "Name is a required field"), rig_state).
Proof.
  apply (process_requires_name Toy.host unnamed_dialog rig_state). reflexivity.
Defined.

Lemma get_valid_value_some (p : SearchComboBox) (text : string) :
  get_valid_value p = Some text <-> In (currentText p) (items p) /\ text = currentText p.
Proof.
  unfold get_valid_value.
  destruct (str_in (currentText p) (items p)) eqn:E.
  - apply str_in_spec in E. split.
    + intros [= <-]. now split.
    + intros [_ ->]. reflexivity.
  - split; [discriminate |].
    intros [Hin _]. apply str_in_spec in Hin. congruence.
Qed.

Lemma not_ignored_spec (v : option string) :
  not_ignored v = true <-> exists text, v = Some text /\ text <> EmptyString.
Proof.
  destruct v as [text|]; simpl.
  - rewrite negb_true_iff, String.eqb_neq. split.
    + intros Hn. now exists text.
    + intros [t [[= <-] Hn]]. exact Hn.
  - split; [discriminate | intros [t [Ht _]]; discriminate].
Qed.

(** C4: the mapping [process] hands to [replicate] has an entry for a source
    exactly when the source's picker shows a text that is one of its items
    and is not the empty placeholder, and the entry maps the source to that
    text; with a name given, [process] passes this mapping, for every
    selected asset, to [replicate]. *)
Theorem process_forwards_chosen_targets :
  forall (H : Host) (app : App),
    name_field app <> EmptyString ->
    (forall s v,
        In (s, v) (attribute_mapping (mapping_data app)) <->
        exists p, In (s, p) (mapping_data app)
                  /\ In (currentText p) (items p)
                  /\ currentText p <> EmptyString
                  /\ v = currentText p)
    /\ process (H := H) app
       = for_each (selection app)
           (fun asset =>
              asset_mapping <- map_houdini_asset asset ;;
              replicate (name_field app) asset_mapping
                (Some (attribute_mapping (mapping_data app))) ;;;
              ret tt).
Proof.
  intros H app Hname. split.
  - intros s v. induction (mapping_data app) as [|[s' p'] rest IH]; simpl.
    + split; [contradiction | intros [p [[] _]]].
    + destruct (not_ignored (get_valid_value p')) eqn:Hk.
      * apply not_ignored_spec in Hk. destruct Hk as [text [Hv Hne]].
        rewrite Hv. apply get_valid_value_some in Hv. destruct Hv as [Hin ->].
        simpl. rewrite IH. split.
        -- intros [[= <- <-] | [p [Hp Hrest]]].
           ++ exists p'. repeat split; auto.
           ++ exists p. split; [now right | exact Hrest].
        -- intros [p [[[= <- <-] | Hp] (Hi & Hn & ->)]].
           ++ now left.
           ++ right. exists p. repeat split; auto.
      * rewrite IH. split.
        -- intros [p [Hp Hrest]]. exists p. split; [now right | exact Hrest].
        -- intros [p [[[= <- <-] | Hp] (Hi & Hn & ->)]].
           ++ exfalso.
              assert (Hsome : get_valid_value p' = Some (currentText p'))
                by (apply get_valid_value_some; now split).
              assert (Hk' : not_ignored (get_valid_value p') = true)
                by (apply not_ignored_spec; exists (currentText p'); now split).
              congruence.
           ++ exists p. repeat split; auto.
  - unfold process. apply String.eqb_neq in Hname. now rewrite Hname.
Qed.

Definition named_dialog : App :=
  {| from_selection := true; name_field := "rocks"; mapping_layout := [];
     mapping_data :=
       [ ("scale", {| items := [EmptyString; "radiusPP"]; currentText := "radiusPP" |});
         ("shear", {| items := [EmptyString; "radiusPP"]; currentText := EmptyString |});
         ("rotation", {| items := [EmptyString; "radiusPP"]; currentText := "typo" |}) ];
     selection := ["asset1"] |}.

Lemma process_forwards_chosen_targets_witness :
  attribute_mapping (mapping_data named_dialog) = [("scale", "radiusPP")]
  /\ (In ("scale", "radiusPP") (attribute_mapping (mapping_data named_dialog)) <->
      exists p, In ("scale", p) (mapping_data named_dialog)
                /\ In (currentText p) (items p)
                /\ currentText p <> EmptyString
                /\ "radiusPP" = currentText p).
Proof.
  split; [reflexivity |].
  apply (process_forwards_chosen_targets Toy.host named_dialog). discriminate.
Defined.

(** *** What a computation adds to the log *)

Section Emits.
Context {H : Host}.

(** [m] only appends to the log, and what it appends satisfies [P]. *)
Definition emits {A} (P : Edit -> Prop) (m : M H A) : Prop :=
  forall st, exists l, st_log (snd (m st)) = (st_log st ++ l)%list /\ Forall P l.

Lemma emits_ret {A} (P : Edit -> Prop) (a : A) : emits P (ret a).
Proof. intros st. exists []. simpl. now rewrite app_nil_r. Qed.

Lemma emits_raise {A} (P : Edit -> Prop) (e : Exn) : emits P (raise (A := A) e).
Proof. intros st. exists []. simpl. now rewrite app_nil_r. Qed.

Lemma emits_ask (P : Edit -> Prop) (q : Query) : emits P (ask q).
Proof. intros st. exists []. simpl. now rewrite app_nil_r. Qed.

Lemma emits_edit (P : Edit -> Prop) (e : Edit) : P e -> emits P (edit e).
Proof.
  intros He st. exists [e]. unfold edit.
  destruct (exec H (st_scene st) e) as [o sc]. simpl. split; [reflexivity | auto].
Qed.

Lemma emits_assert (P : Edit -> Prop) (c : bool) (msg : string) : emits P (assert c msg).
Proof. destruct c; [apply emits_ret | apply emits_raise]. Qed.

Lemma emits_bind {A B} (P : Edit -> Prop) (m : M H A) (k : A -> M H B) :
  emits P m -> (forall a, emits P (k a)) -> emits P (bind m k).
Proof.
  intros Hm Hk st. unfold bind.
  destruct (Hm st) as [l1 [E1 F1]].
  destruct (m st) as [[a|e] st1]; simpl in E1.
  - destruct (Hk a st1) as [l2 [E2 F2]].
    exists (l1 ++ l2)%list. rewrite E2, E1, app_assoc.
    split; [reflexivity | now apply Forall_app].
  - exists l1. simpl. now split.
Qed.

Lemma emits_pass_runtime_error {A} (P : Edit -> Prop) (m : M H A) :
  emits P m -> emits P (pass_runtime_error m).
Proof.
  intros Hm st. unfold pass_runtime_error.
  destruct (Hm st) as [l [E F]].
  destruct (m st) as [[a|[]] st1]; simpl in *; exists l; now split.
Qed.

Lemma emits_try_finally {A} (P : Edit -> Prop) (m : M H A) (f : M H unit) :
  emits P m -> emits P f -> emits P (try_finally m f).
Proof.
  intros Hm Hf st. unfold try_finally.
  destruct (Hm st) as [l1 [E1 F1]].
  destruct (m st) as [o st1]; simpl in E1.
  destruct (Hf st1) as [l2 [E2 F2]].
  exists (l1 ++ l2)%list.
  destruct (f st1) as [[u|e] st2]; simpl in *;
    rewrite E2, E1, app_assoc; (split; [reflexivity | now apply Forall_app]).
Qed.

Lemma emits_for_enumerate {A} (P : Edit -> Prop) (body : nat -> A -> M H unit)
    (l : list A) :
  (forall i x, emits P (body i x)) -> forall start, emits P (for_enumerate start l body).
Proof.
  intros Hb. induction l as [|x r IH]; intros start; simpl.
  - apply emits_ret.
  - apply emits_bind; [apply Hb | intros _; apply IH].
Qed.

Lemma emits_weaken {A} (P Q : Edit -> Prop) (m : M H A) :
  (forall e, P e -> Q e) -> emits P m -> emits Q m.
Proof.
  intros HPQ Hm st. destruct (Hm st) as [l [E F]]. exists l. split; [exact E |].
  eapply Forall_impl; eauto.
Qed.

(** A successful loop ran its body on every element, each from a state
    whose log extends the log at the start and is extended by the log at the
    end. *)
Lemma for_enumerate_ok {A} (body : nat -> A -> M H unit) (l : list A) :
  (forall i x, emits (fun _ => True) (body i x)) ->
  forall start st st',
    for_enumerate start l body st = (Ok tt, st') ->
    forall j x, nth_error l j = Some x ->
      exists sj sj' pre post,
        body (start + j) x sj = (Ok tt, sj')
        /\ st_log sj = (st_log st ++ pre)%list
        /\ st_log st' = (st_log sj' ++ post)%list.
Proof.
  intros Hb. induction l as [|y r IH]; intros start st st' Hrun j x Hj.
  - destruct j; discriminate.
  - simpl in Hrun. unfold bind in Hrun.
    destruct (body start y st) as [[[]|e] s1] eqn:Hy; [|discriminate].
    destruct j as [|j]; simpl in Hj.
    + injection Hj as <-.
      destruct (emits_for_enumerate (fun _ => True) body r Hb (S start) s1)
        as [post [Ep _]].
      rewrite Hrun in Ep. simpl in Ep.
      exists st, s1, [], post. rewrite Nat.add_0_r, app_nil_r. auto.
    + destruct (IH (S start) s1 st' Hrun j x Hj) as (sj & sj' & pre & post & B & E1 & E2).
      destruct (Hb start y st) as [l1 [El1 _]]. rewrite Hy in El1. simpl in El1.
      exists sj, sj', (l1 ++ pre)%list, post.
      rewrite Nat.add_succ_r. simpl in B.
      split; [exact B |]. split; [| exact E2].
      now rewrite E1, El1, app_assoc.
Qed.
End Emits.

(** *** replicate: the edits of one entry *)

(** The edits [replicate] may issue after it has settled on [nucleus]: no
    node creation, no disconnection, no forced connection, and no MEL
    command but the assignment to [nucleus]. *)
Definition allowed (nucleus : string) (e : Edit) : Prop :=
  match e with
  | ECreateNode _ => False
  | EDisconnectAttr _ _ => False
  | EConnectAttr _ _ force => force = false
  | EMelEval cmd => cmd = assign_solver nucleus
  | _ => True
  end.

(** The edits of a completed pass of the loop of [replicate]. *)
Definition copy_edits (name nucleus asset_group : string)
    (attribute_mapping : list (string * string)) (i : nat)
    (particle data_attr new_system : string) (objects : list string)
    (new_instancer : string) : list Edit :=
  [ EDuplicate particle (part_name name i);
    EConnectAttr data_attr (cache_array_data new_system) false;
    ESelectClear;
    ESelect new_system;
    EMelEval (assign_solver nucleus);
    EParent new_system asset_group;
    EParticleInstancer new_system (inst_name name i) objects attribute_mapping;
    ECheckBoxGrp "AEdisplayAllTypes" true;
    ESetAttr (new_instancer ++ ".rotationAngleUnits") 1%Z;
    ESetAttr (new_instancer ++ ".rotationOrder") 0%Z;
    EParent new_instancer asset_group ].

Section ReplicateEdits.
Context {H : Host}.

Definition logged (st : State H) (sc : scene H) (e : Edit) : State H :=
  {| st_scene := sc; st_log := (st_log st ++ [e])%list |}.

Lemma bind_edit_run {B} (e : Edit) (k : result e -> M H B) (st : State H) :
  bind (edit e) k st =
    match exec H (st_scene st) e with
    | (Ok r, sc) => k r (logged st sc e)
    | (Raise x, sc) => (Raise x, logged st sc e)
    end.
Proof.
  unfold bind, edit, logged. destruct (exec H (st_scene st) e) as [[r|x] sc]; reflexivity.
Qed.

Lemma bind_edit_ok {B} (e : Edit) (k : result e -> M H B) (st st' : State H) (b : B) :
  bind (edit e) k st = (Ok b, st') ->
  exists r sc, exec H (st_scene st) e = (Ok r, sc) /\ k r (logged st sc e) = (Ok b, st').
Proof.
  unfold bind, edit, logged. destruct (exec H (st_scene st) e) as [[r|ex] sc].
  - intros Hk. now exists r, sc.
  - discriminate.
Qed.

Lemma pass_edit_ok (e : Edit) (st st' : State H) :
  pass_runtime_error (edit e) st = (Ok tt, st') ->
  st_log st' = (st_log st ++ [e])%list.
Proof.
  unfold pass_runtime_error, edit. destruct (exec H (st_scene st) e) as [[r|[]] sc];
    intros [= <-]; reflexivity.
Qed.

Lemma replicate_asset_emits (name nucleus group : string)
    (attrs : list (string * string)) (i : nat) (entry : string * AssetData) :
  emits (H := H) (allowed nucleus) (replicate_asset name nucleus group attrs i entry).
Proof.
  destruct entry as [asset mapping]. unfold replicate_asset.
  destruct (particle_system mapping) as [[|[particle attributes] more]|];
    try apply emits_raise.
  apply emits_bind; [apply emits_ask | intros found].
  apply emits_bind; [apply emits_assert | intros _].
  destruct (match found with Some l => l | None => [] end) as [|data_attr rest];
    [apply emits_raise |].
  apply emits_bind; [apply emits_edit; exact I | intros new_systems].
  apply emits_bind; [apply emits_assert | intros _].
  destruct new_systems as [|new_system others]; [apply emits_raise |].
  repeat (apply emits_bind; [apply emits_edit; simpl; auto | intros ?]).
  destruct (keyword_clash attrs); [apply emits_raise |].
  repeat (apply emits_bind; [apply emits_edit; simpl; auto | intros ?]).
  apply emits_pass_runtime_error, emits_edit. exact I.
Qed.

(** A pass that completes found exactly one plug feeding the particle
    system's [cacheArrayData], got exactly one duplicate from the host, and
    issued [copy_edits] for them. *)
Lemma replicate_asset_ok (name nucleus group : string)
    (attrs : list (string * string)) (i : nat) (asset : string) (mapping : AssetData)
    (st st' : State H) :
  replicate_asset name nucleus group attrs i (asset, mapping) st = (Ok tt, st') ->
  exists particle attributes more data_attr new_system new_instancer sc,
    particle_system mapping = Some ((particle, attributes) :: more)
    /\ query H (st_scene st) (QListConnections (cache_array_data particle) plugs_only)
       = Some [data_attr]
    /\ exec H (st_scene st) (EDuplicate particle (part_name name i))
       = (Ok [new_system], sc)
    /\ st_log st'
       = (st_log st
            ++ copy_edits name nucleus group attrs i particle data_attr new_system
                 (match hierarchy mapping with Some h => h | None => [] end)
                 new_instancer)%list.
Proof.
  unfold replicate_asset. intros Hrun.
  destruct (particle_system mapping) as [[|[particle attributes] more]|];
    try discriminate.
  rewrite bind_ask in Hrun.
  destruct (query H (st_scene st) (QListConnections (cache_array_data particle) plugs_only))
    as [[|data_attr [|second rest]]|] eqn:Hq; try discriminate.
  cbn [assert length Nat.eqb] in Hrun. rewrite bind_ret in Hrun.
  apply bind_edit_ok in Hrun. destruct Hrun as (new_systems & sc & Hdup & Hrun).
  destruct new_systems as [|new_system [|another others]]; try discriminate.
  cbn [assert length Nat.eqb] in Hrun. rewrite bind_ret in Hrun.
  apply bind_edit_ok in Hrun. destruct Hrun as (_ & sc1 & _ & Hrun).
  apply bind_edit_ok in Hrun. destruct Hrun as (_ & sc2 & _ & Hrun).
  apply bind_edit_ok in Hrun. destruct Hrun as (_ & sc3 & _ & Hrun).
  apply bind_edit_ok in Hrun. destruct Hrun as (_ & sc4 & _ & Hrun).
  apply bind_edit_ok in Hrun. destruct Hrun as (_ & sc5 & _ & Hrun).
  destruct (keyword_clash attrs); [discriminate |].
  apply bind_edit_ok in Hrun. destruct Hrun as (new_instancer & sc6 & _ & Hrun).
  apply bind_edit_ok in Hrun. destruct Hrun as (_ & sc7 & _ & Hrun).
  apply bind_edit_ok in Hrun. destruct Hrun as (_ & sc8 & _ & Hrun).
  apply bind_edit_ok in Hrun. destruct Hrun as (_ & sc9 & _ & Hrun).
  apply pass_edit_ok in Hrun.
  exists particle, attributes, more, data_attr, new_system, new_instancer, sc.
  repeat split; try assumption.
  rewrite Hrun. unfold logged, copy_edits. simpl.
  repeat rewrite <- app_assoc. reflexivity.
Qed.
End ReplicateEdits.

(** *** replicate: the whole call *)

Section ReplicateRun.
Context {H : Host}.

Definition objects_of (mapping : AssetData) : list string :=
  match hierarchy mapping with Some h => h | None => [] end.

(** The nucleus a call of [replicate] from scene [sc] works with, when it
    gets one: the first the scene has, or else the one the host creates. *)
Definition chosen_nucleus (sc : scene H) (nucleus : string) : Prop :=
  match query H sc (QLs false "nucleus") with
  | [] => fst (exec H sc (ECreateNode "nucleus")) = Ok nucleus
  | first :: _ => nucleus = first
  end.

Lemma pick_nucleus_run (st : State H) :
  pick_nucleus st =
    match query H (st_scene st) (QLs false "nucleus") with
    | [] => edit (ECreateNode "nucleus") st
    | first :: _ => (Ok first, st)
    end.
Proof.
  unfold pick_nucleus. rewrite bind_ask.
  destruct (query H (st_scene st) (QLs false "nucleus")); reflexivity.
Qed.

Lemma pick_nucleus_ok (st st1 : State H) (nucleus : string) :
  pick_nucleus st = (Ok nucleus, st1) ->
  chosen_nucleus (st_scene st) nucleus
  /\ exists first_edits,
       st_log st1 = (st_log st ++ first_edits)%list
       /\ (first_edits = [ECreateNode "nucleus"]
           /\ query H (st_scene st) (QLs false "nucleus") = []
           \/ first_edits = [] /\ query H (st_scene st) (QLs false "nucleus") <> []).
Proof.
  rewrite pick_nucleus_run. unfold chosen_nucleus.
  destruct (query H (st_scene st) (QLs false "nucleus")) as [|first rest].
  - unfold edit. destruct (exec H (st_scene st) (ECreateNode "nucleus")) as [[n|e] sc];
      [|discriminate].
    intros [= -> <-]. split; [reflexivity |].
    exists [ECreateNode "nucleus"]. split; [reflexivity | now left].
  - intros [= -> <-]. split; [reflexivity |].
    exists []. rewrite app_nil_r. split; [reflexivity | right; split; congruence].
Qed.

(** A call that returns has made a complete pass for every entry of the
    mapping, all with the one nucleus chosen at its start. *)
Lemma replicate_ok_entries (name : string) (asset_mapping : list (string * AssetData))
    (attribute_mapping : option (list (string * string))) (st st' : State H) (b : bool) :
  replicate name asset_mapping attribute_mapping st = (Ok b, st') ->
  exists nucleus asset_group,
    chosen_nucleus (st_scene st) nucleus
    /\ forall i asset mapping,
         nth_error asset_mapping i = Some (asset, mapping) ->
         exists particle attributes more data_attr new_system new_instancer si sc pre post,
           particle_system mapping = Some ((particle, attributes) :: more)
           /\ query H (st_scene si)
                (QListConnections (cache_array_data particle) plugs_only)
              = Some [data_attr]
           /\ exec H (st_scene si) (EDuplicate particle (part_name (name ++ "_") i))
              = (Ok [new_system], sc)
           /\ st_log si = (st_log st ++ pre)%list
           /\ st_log st'
              = (st_log st ++ pre
                   ++ copy_edits (name ++ "_") nucleus asset_group
                        (mapping_or_empty attribute_mapping) i particle data_attr
                        new_system (objects_of mapping) new_instancer
                   ++ post)%list.
Proof.
  unfold replicate. intros Hrun. unfold bind at 1 in Hrun.
  destruct (pick_nucleus st) as [[nucleus|e] s1] eqn:Hpick; [|discriminate].
  apply pick_nucleus_ok in Hpick. destruct Hpick as (Hchosen & first_edits & Hlog1 & _).
  rewrite bind_ask in Hrun.
  apply bind_edit_ok in Hrun. destruct Hrun as (asset_group & sc2 & _ & Hrun).
  unfold bind in Hrun.
  match type of Hrun with
  | context [for_enumerate ?s ?l ?body ?st0] =>
      destruct (for_enumerate s l body st0) as [[[]|e] s3] eqn:Hloop; [|discriminate]
  end.
  injection Hrun as _ <-.
  exists nucleus, asset_group. split; [exact Hchosen |].
  intros i asset mapping Hi.
  eapply for_enumerate_ok in Hloop; [| | exact Hi].
  - destruct Hloop as (sj & sj' & pre & post & Hbody & Epre & Epost).
    cbn [Nat.add] in Hbody. apply replicate_asset_ok in Hbody.
    destruct Hbody as (particle & attributes & more & data_attr & new_system
                       & new_instancer & sc & Hp & Hq & Hd & Hlog).
    exists particle, attributes, more, data_attr, new_system, new_instancer, sj, sc.
    exists (first_edits
              ++ [EGroup (query H (st_scene s1) (QUniqueName (name ++ "_") "%03d" "_GRP")
                            ++ "_GRP")] ++ pre)%list, post.
    repeat split; try assumption.
    + rewrite Epre. unfold logged. simpl st_log. rewrite Hlog1.
      repeat rewrite <- app_assoc. reflexivity.
    + rewrite Epost, Hlog, Epre. unfold logged, objects_of. simpl st_log. rewrite Hlog1.
      repeat rewrite <- app_assoc. reflexivity.
  - intros j x. eapply emits_weaken; [| apply replicate_asset_emits]. auto.
Qed.
End ReplicateRun.

Section ReplicateLog.
Context {H : Host}.

(** Whatever its outcome, a call of [replicate] first creates a nucleus
    exactly when the scene has none, and after that issues only [allowed]
    edits for the nucleus it chose. *)
Lemma replicate_log (name : string) (asset_mapping : list (string * AssetData))
    (attribute_mapping : option (list (string * string))) (st : State H) :
  exists first_edits rest nucleus,
    st_log (snd (replicate name asset_mapping attribute_mapping st))
    = (st_log st ++ first_edits ++ rest)%list
    /\ Forall (allowed nucleus) rest
    /\ (rest <> [] -> chosen_nucleus (st_scene st) nucleus)
    /\ (first_edits = [ECreateNode "nucleus"]
        /\ query H (st_scene st) (QLs false "nucleus") = []
        \/ first_edits = [] /\ query H (st_scene st) (QLs false "nucleus") <> []).
Proof.
  unfold replicate.
  match goal with
  | |- context [bind pick_nucleus ?k st] =>
      assert (Hk : forall n, emits (allowed n) (k n))
  end.
  { intros n. cbv beta.
    apply emits_bind; [apply emits_ask | intros unique].
    apply emits_bind; [apply emits_edit; exact I | intros asset_group].
    apply emits_bind; [| intros _; apply emits_ret].
    apply emits_for_enumerate. intros i x. apply replicate_asset_emits. }
  unfold bind at 1. rewrite pick_nucleus_run. unfold chosen_nucleus.
  destruct (query H (st_scene st) (QLs false "nucleus")) as [|first others].
  - change (edit (ECreateNode "nucleus") st)
      with (let '(o, sc) := exec H (st_scene st) (ECreateNode "nucleus") in
            (o, logged st sc (ECreateNode "nucleus"))).
    destruct (exec H (st_scene st) (ECreateNode "nucleus")) as [[n|e] sc];
      cbv beta iota zeta.
    + match goal with
      | |- context [snd (?m ?s1)] => destruct (Hk n s1) as [l [E F]]
      end.
      cbv beta in E. exists [ECreateNode "nucleus"], l, n.
      rewrite E. simpl st_log. rewrite <- app_assoc.
      repeat split; auto.
    + exists [ECreateNode "nucleus"], [], EmptyString. simpl.
      repeat split; auto. congruence.
  - match goal with
    | |- context [snd (?m ?s1)] => destruct (Hk first s1) as [l [E F]]
    end.
    cbv beta in E. exists [], l, first. rewrite E.
    repeat split; auto. right. split; congruence.
Qed.
End ReplicateLog.

(** The mapping [map_houdini_asset] gives for [asset1] of the rig. *)
Definition rig_mapping : list (string * AssetData) :=
  [("asset1", {| particle_system := Some [("part1", Some ["radiusPP:float"; "index:int"])];
                 hierarchy := Some ["meshA"; "meshB"] |})].

(** The claim that every entry of the mapping whose particle data is
    present is copied, read on a scene in which one plug feeds the
    original's [cacheArrayData]. *)
Definition every_entry_with_data_is_copied : Prop :=
  forall (H : Host) (name : string) (asset_mapping : list (string * AssetData))
         (attribute_mapping : option (list (string * string))) (st : State H)
         (i : nat) (asset : string) (mapping : AssetData)
         (particle : string) (attributes : option (list string))
         (more : list (string * option (list string))) (data_attr : string),
    nth_error asset_mapping i = Some (asset, mapping) ->
    particle_system mapping = Some ((particle, attributes) :: more) ->
    query H (st_scene st) (QListConnections (particle ++ ".cacheArrayData") plugs_only)
    = Some [data_attr] ->
    In (EDuplicate particle ((name ++ "_") ++ pad3 i ++ "_PART"))
       (st_log (snd (replicate name asset_mapping attribute_mapping st))).

(** An entry without particle data, followed by the entry of [asset1]. *)
Definition incomplete_then_rig : list (string * AssetData) :=
  ("bare1", {| particle_system := None; hierarchy := None |}) :: rig_mapping.


Section ReplicateReach.
Context {H : Host}.

Lemma for_enumerate_app {A} (body : nat -> A -> M H unit) (l1 l2 : list A) :
  forall start st,
    for_enumerate start (l1 ++ l2)%list body st =
      match for_enumerate start l1 body st with
      | (Ok _, s) => for_enumerate (start + length l1) l2 body s
      | (Raise e, s) => (Raise e, s)
      end.
Proof.
  induction l1 as [|x r IH]; intros start st; simpl.
  - now rewrite Nat.add_0_r.
  - unfold bind. destruct (body start x st) as [[u|e] s1]; [|reflexivity].
    rewrite IH. now rewrite Nat.add_succ_r.
Qed.

(** When the call on the entries [done] returns in state [si], the call on
    a longer mapping reaches its next entry in [si], with the nucleus and
    the group it has by then. *)
Lemma replicate_reaches (name : string) (done : list (string * AssetData))
    (attribute_mapping : option (list (string * string))) (st si : State H) (b : bool) :
  replicate name done attribute_mapping st = (Ok b, si) ->
  exists nucleus asset_group,
    forall entry rest,
      replicate name (done ++ entry :: rest)%list attribute_mapping st
      = bind (replicate_asset (name ++ "_") nucleus asset_group
                (mapping_or_empty attribute_mapping) (length done) entry)
          (fun _ =>
             bind (for_enumerate (S (length done)) rest
                     (replicate_asset (name ++ "_") nucleus asset_group
                        (mapping_or_empty attribute_mapping)))
               (fun _ => ret true)) si.
Proof.
  unfold replicate. intros Hrun. unfold bind at 1 in Hrun.
  destruct (pick_nucleus st) as [[nucleus|e] s1] eqn:Hpick; [|discriminate].
  rewrite (bind_ask (QUniqueName (name ++ "_") "%03d" "_GRP")) in Hrun.
  rewrite bind_edit_run in Hrun.
  match type of Hrun with
  | context [exec H ?sc ?e] =>
      destruct (exec H sc e) as [[asset_group|x] sc2] eqn:Hgroup; [|discriminate]
  end.
  unfold bind in Hrun.
  match type of Hrun with
  | context [for_enumerate ?s ?l ?body ?st0] =>
      destruct (for_enumerate s l body st0) as [[[]|x] s3] eqn:Hloop; [|discriminate]
  end.
  injection Hrun as _ <-.
  exists nucleus, asset_group. intros entry rest.
  rewrite (bind_ok _ _ _ _ _ Hpick).
  rewrite (bind_ask (QUniqueName (name ++ "_") "%03d" "_GRP")).
  rewrite bind_edit_run, Hgroup.
  unfold bind at 1. rewrite for_enumerate_app, Hloop.
  cbn [Nat.add for_enumerate]. unfold bind.
  match goal with
  | |- context [replicate_asset ?n ?u ?g ?a ?i ?e ?s] =>
      destruct (replicate_asset n u g a i e s) as [[[]|x] s4]; [|reflexivity]
  end.
  match goal with
  | |- context [for_enumerate ?s ?l ?body ?st0] =>
      destruct (for_enumerate s l body st0) as [[[]|x] s5]; reflexivity
  end.
Qed.

(** What follows an entry in the call only appends to the log. *)
Lemma then_appends {A B} (m : M H A) (k : A -> M H B) (st : State H) :
  (forall a, emits (fun _ => True) (k a)) ->
  exists post, st_log (snd (bind m k st)) = (st_log (snd (m st)) ++ post)%list.
Proof.
  intros Hk. unfold bind. destruct (m st) as [[a|e] s1].
  - destruct (Hk a s1) as [post [E _]]. exists post. exact E.
  - exists []. simpl. now rewrite app_nil_r.
Qed.

(** A pass over an entry with particle data, by the answers of the host. *)
Lemma replicate_asset_copies (name nucleus asset_group : string)
    (attribute_mapping : list (string * string)) (i : nat) (asset : string)
    (mapping : AssetData) (particle : string) (attributes : option (list string))
    (more : list (string * option (list string))) (st : State H) :
  particle_system mapping = Some ((particle, attributes) :: more) ->
  let pass := replicate_asset name nucleus asset_group attribute_mapping i (asset, mapping) in
  let plugs := query H (st_scene st) (QListConnections (cache_array_data particle) plugs_only) in
  let copy := EDuplicate particle (part_name name i) in
  ((forall data_attr, plugs <> Some [data_attr]) ->
   pass st = (Raise (AssertionError "This is a bug"), st))
  /\ forall data_attr,
       plugs = Some [data_attr] ->
       forall new_systems sc,
         exec H (st_scene st) copy = (Ok new_systems, sc) ->
         (length new_systems <> 1 ->
          pass st
          = (Raise (AssertionError ("This is a bug, duplicated '"
                                      ++ decimal (length new_systems)
                                      ++ "' nParticle nodes")),
             logged st sc copy))
         /\ forall new_system,
              new_systems = [new_system] ->
              exists post,
                st_log (snd (pass st))
                = (st_log st
                     ++ [copy; EConnectAttr data_attr (cache_array_data new_system) false]
                     ++ post)%list.
Proof.
  intros Hp pass plugs copy. subst pass plugs copy.
  unfold replicate_asset. rewrite Hp.
  rewrite (bind_ask (QListConnections (cache_array_data particle) plugs_only)).
  split.
  - intros Hnot.
    destruct (query H (st_scene st) (QListConnections (cache_array_data particle) plugs_only))
      as [[|data_attr [|second others]]|]; try reflexivity.
    now destruct (Hnot data_attr).
  - intros data_attr -> new_systems sc Hdup.
    cbn [assert length Nat.eqb]. rewrite bind_ret, bind_edit_run, Hdup.
    split.
    + intros Hlen. destruct new_systems as [|new_system [|another others]];
        try reflexivity.
      now destruct Hlen.
    + intros new_system ->.
      cbn [assert length Nat.eqb]. rewrite bind_ret, bind_edit_run.
      match goal with
      | |- context [exec H ?s ?e] => destruct (exec H s e) as [[[]|x] sc1]
      end.
      * match goal with
        | |- context [snd (?m ?s1)] =>
            assert (Hm : emits (fun _ => True) m)
        end.
        { repeat (apply emits_bind; [apply emits_edit; exact I | intros ?]).
          destruct (keyword_clash attribute_mapping); [apply emits_raise |].
          repeat (apply emits_bind; [apply emits_edit; exact I | intros ?]).
          apply emits_pass_runtime_error, emits_edit. exact I. }
        match goal with
        | |- context [snd (?m ?s1)] => destruct (Hm s1) as [post [E _]]
        end.
        exists post. rewrite E. unfold logged. simpl st_log.
        repeat rewrite <- app_assoc. reflexivity.
      * exists []. unfold logged. simpl.
        repeat rewrite <- app_assoc. reflexivity.
Qed.
End ReplicateReach.


Definition rig_run : Outcome bool * State Toy.host :=
  replicate "foo" rig_mapping (Some [("scale", "radiusPP")]) rig_state.

(** The entry of [asset1], followed by an entry without particle data. *)
Definition rig_then_incomplete : list (string * AssetData) :=
  (rig_mapping ++ [("bare1", {| particle_system := None; hierarchy := None |})])%list.


(** C10: the edits of a call of [replicate] begin with the creation of a
    nucleus exactly when the scene query for nucleus nodes comes back empty
    at the start of the call, and no nucleus is created afterwards; every
    solver assignment issued names the chosen nucleus (the created one, or
    else the first of the query); and when the call returns, each entry's
    duplicate was selected and assigned to that nucleus right after it was
    connected. *)
Theorem replicate_uses_one_nucleus :
  forall (H : Host) (name : string) (asset_mapping : list (string * AssetData))
         (attribute_mapping : option (list (string * string))) (st : State H),
    (exists first_edits rest nucleus,
        st_log (snd (replicate name asset_mapping attribute_mapping st))
        = (st_log st ++ first_edits ++ rest)%list
        /\ (first_edits = [ECreateNode "nucleus"]
            <-> query H (st_scene st) (QLs false "nucleus") = [])
        /\ (first_edits = [] <-> query H (st_scene st) (QLs false "nucleus") <> [])
        /\ (forall type, ~ In (ECreateNode type) rest)
        /\ (forall cmd, In (EMelEval cmd) rest ->
              cmd = "assignNSolver " ++ nucleus
              /\ chosen_nucleus (st_scene st) nucleus))
    /\ forall st' b,
         replicate name asset_mapping attribute_mapping st = (Ok b, st') ->
         exists nucleus,
           chosen_nucleus (st_scene st) nucleus
           /\ forall i asset mapping,
                nth_error asset_mapping i = Some (asset, mapping) ->
                exists particle data_attr new_system si sc pre post,
                  exec H (st_scene si)
                    (EDuplicate particle ((name ++ "_") ++ pad3 i ++ "_PART"))
                  = (Ok [new_system], sc)
                  /\ st_log st'
                     = (st_log st ++ pre
                          ++ [ EDuplicate particle ((name ++ "_") ++ pad3 i ++ "_PART");
                               EConnectAttr data_attr (new_system ++ ".cacheArrayData")
                                 false;
                               ESelectClear;
                               ESelect new_system;
                               EMelEval ("assignNSolver " ++ nucleus) ]
                          ++ post)%list.
Proof.
  intros H name asset_mapping attribute_mapping st. split.
  - destruct (replicate_log name asset_mapping attribute_mapping st)
      as (first_edits & rest & nucleus & Hlog & Hall & Hchosen & Hfirst).
    exists first_edits, rest, nucleus. rewrite Forall_forall in Hall.
    split; [exact Hlog |]. split; [| split; [| split]].
    + destruct Hfirst as [[-> Hq] | [-> Hq]]; split; intros; congruence.
    + destruct Hfirst as [[-> Hq] | [-> Hq]]; split; intros; congruence.
    + intros type Hin. apply Hall in Hin. exact Hin.
    + intros cmd Hin. split.
      * apply Hall in Hin. exact Hin.
      * apply Hchosen. intros ->. contradiction.
  - intros st' b Hrun.
    destruct (replicate_ok_entries name asset_mapping attribute_mapping st st' b Hrun)
      as (nucleus & asset_group & Hchosen & Hentries).
    exists nucleus. split; [exact Hchosen |].
    intros i asset mapping Hi.
    destruct (Hentries i asset mapping Hi)
      as (particle & attributes & more & data_attr & new_system & new_instancer
          & si & sc & pre & post & Hp & Hq & Hd & Hsi & Hlog).
    exists particle, data_attr, new_system, si, sc, pre.
    eexists. split; [exact Hd |].
    rewrite Hlog. unfold copy_edits, part_name, cache_array_data, assign_solver. simpl.
    reflexivity.
Qed.

Lemma replicate_uses_one_nucleus_witness :
  exists nucleus,
    chosen_nucleus (st_scene rig_state) nucleus
    /\ forall i asset mapping,
         nth_error rig_mapping i = Some (asset, mapping) ->
         exists particle data_attr new_system si sc pre post,
           exec Toy.host (st_scene si)
             (EDuplicate particle (("foo" ++ "_") ++ pad3 i ++ "_PART"))
           = (Ok [new_system], sc)
           /\ st_log (snd rig_run)
              = (st_log rig_state ++ pre
                   ++ [ EDuplicate particle (("foo" ++ "_") ++ pad3 i ++ "_PART");
                        EConnectAttr data_attr (new_system ++ ".cacheArrayData") false;
                        ESelectClear;
                        ESelect new_system;
                        EMelEval ("assignNSolver " ++ nucleus) ]
                   ++ post)%list.
Proof.
  destruct (replicate_uses_one_nucleus Toy.host "foo" rig_mapping
              (Some [("scale", "radiusPP")]) rig_state) as [_ Hok].
  apply (Hok (snd rig_run) true).
  vm_compute. reflexivity.
Defined.

(** *** The dialog: refresh *)

Lemma dict_set_in {V} (k s : string) (v p : V) (d : list (string * V)) :
  In (s, p) (dict_set k v d) -> (s, p) = (k, v) \/ In (s, p) d.
Proof.
  induction d as [|[k' v'] r IH]; simpl.
  - intros [E | []]. left. now symmetry.
  - destruct (String.eqb k k').
    + intros [E | Hin]; [left; now symmetry | right; now right].
    + intros [E | Hin]; [right; now left |].
      destruct (IH Hin) as [E | Hr]; [now left | right; now right].
Qed.

Lemma mapper_rows_data (sources targets : list string)
    (d : list (string * SearchComboBox)) (s : string) (p : SearchComboBox) :
  In (s, p) (snd (mapper_rows sources targets d)) -> p = populate targets \/ In (s, p) d.
Proof.
  revert d. induction sources as [|source rest IH]; intros d; simpl.
  - now right.
  - destruct (mapper_rows rest targets (dict_set source (populate targets) d))
      as [rs data'] eqn:E. simpl. intros Hin.
    specialize (IH (dict_set source (populate targets) d)). rewrite E in IH.
    destruct (IH Hin) as [Hp | Hd]; [now left |].
    apply dict_set_in in Hd. destruct Hd as [[= _ ->] | Hd]; [now left | now right].
Qed.

(** What [add_section] does to the dialog: one more live widget at the end
    of the layout, and the [mapping_data] that its mapper leaves. *)
Lemma add_section_spec (targets : list string) (app : App) (section : string) :
  let built := mapper_rows (INSTANCER_PP_ATTRIBUTES section) targets (mapping_data app) in
  add_section targets app section =
    {| from_selection := from_selection app;
       name_field := name_field app;
       mapping_layout :=
         (mapping_layout app
            ++ [{| widget := {| objectName := section; box_title := title section;
                                rows := fst built |};
                   delete_later := false |}])%list;
       mapping_data := snd built;
       selection := selection app |}.
Proof.
  unfold add_section, _create_mapper.
  destruct (mapper_rows (INSTANCER_PP_ATTRIBUTES section) targets (mapping_data app))
    as [rs data]. reflexivity.
Qed.

(** Two dialogs with the same [mapping_data] get the same widgets appended
    and end with the same [mapping_data]. *)
Lemma add_sections_same (targets sections : list string) :
  forall a b : App,
    mapping_data a = mapping_data b ->
    let a' := fold_left (add_section targets) sections a in
    let b' := fold_left (add_section targets) sections b in
    mapping_data a' = mapping_data b'
    /\ selection a' = selection a /\ selection b' = selection b
    /\ exists built,
         mapping_layout a' = (mapping_layout a ++ built)%list
         /\ mapping_layout b' = (mapping_layout b ++ built)%list
         /\ Forall (fun it => delete_later it = false) built.
Proof.
  induction sections as [|section rest IH]; intros a b Hd; simpl.
  - repeat split; auto. exists []. now rewrite !app_nil_r.
  - destruct (IH (add_section targets a section) (add_section targets b section))
      as (Hdata & Hsa & Hsb & built & Hla & Hlb & Hall).
    { rewrite !add_section_spec. simpl. now rewrite Hd. }
    split; [exact Hdata |].
    rewrite Hsa, Hsb, Hla, Hlb, !add_section_spec. simpl. rewrite Hd.
    repeat split; auto.
    eexists. rewrite <- !app_assoc. repeat split. constructor; [reflexivity | exact Hall].
Qed.

Lemma add_sections_data (targets sections : list string) (s : string)
    (p : SearchComboBox) :
  forall a : App,
    In (s, p) (mapping_data (fold_left (add_section targets) sections a)) ->
    p = populate targets \/ In (s, p) (mapping_data a).
Proof.
  induction sections as [|section rest IH]; intros a; simpl.
  - now right.
  - intros Hin. destruct (IH _ Hin) as [Hp | Hd]; [now left |].
    rewrite add_section_spec in Hd. simpl in Hd. now apply mapper_rows_data in Hd.
Qed.

Lemma live_after_schedule (old built : list LayoutItem) :
  Forall (fun it => delete_later it = false) built ->
  filter (fun it => negb (delete_later it)) (map schedule_delete old ++ built)%list = built.
Proof.
  intros Hall. rewrite filter_app.
  assert (Hold : filter (fun it => negb (delete_later it)) (map schedule_delete old) = []).
  { induction old as [|it r IH]; simpl; auto. }
  rewrite Hold. simpl.
  induction Hall as [|it r Hit Hr IH]; simpl; [reflexivity |].
  now rewrite Hit, IH.
Qed.

Section Refresh.
Context {H : Host}.

Definition dialog_after (r : Outcome unit * App * State H) : App := snd (fst r).

Lemma get_settings_same (a b : App) (st : State H) :
  from_selection a = from_selection b ->
  mapping_data a = mapping_data b ->
  let ra := get_settings a st in
  let rb := get_settings b st in
  fst (fst ra) = fst (fst rb)
  /\ snd ra = snd rb
  /\ mapping_data (dialog_after ra) = mapping_data (dialog_after rb)
  /\ selection (dialog_after ra) = selection (dialog_after rb)
  /\ exists built,
       mapping_layout (dialog_after ra) = (mapping_layout a ++ built)%list
       /\ mapping_layout (dialog_after rb) = (mapping_layout b ++ built)%list
       /\ Forall (fun it => delete_later it = false) built.
Proof.
  intros Hsel Hdata. unfold get_settings, dialog_after. rewrite Hsel.
  assert (Hnone : forall x y : App,
             mapping_layout x = mapping_layout a -> mapping_layout y = mapping_layout b ->
             exists built,
               mapping_layout x = (mapping_layout a ++ built)%list
               /\ mapping_layout y = (mapping_layout b ++ built)%list
               /\ Forall (fun it => delete_later it = false) built).
  { intros x y Hx Hy. exists []. rewrite !app_nil_r. auto. }
  rewrite get_houdini_assets_run.
  destruct (host_houdini_assets (st_scene st) (from_selection b)) as [|asset assets];
    cbn -[collect_targets add_section fold_left DEFAULT_TARGETS];
    try (split; [|split; [|split; [|split]]]; auto; fail).
  set (st1 := st).
  destruct (collect_targets (asset :: assets) [] st1) as [[inserted|e] st2];
    cbn -[collect_targets add_section fold_left DEFAULT_TARGETS];
    try (split; [|split; [|split; [|split]]]; auto; fail).
  destruct (add_sections_same (DEFAULT_TARGETS ++ set_order H inserted)%list
              ["general"; "rotation"]
              (with_selection a (asset :: assets)) (with_selection b (asset :: assets)))
    as (Hd & Hsa & Hsb & built & Hla & Hlb & Hall); [exact Hdata |].
  cbn [with_selection mapping_layout selection] in Hsa, Hsb, Hla, Hlb.
  split; [|split; [|split; [|split]]]; auto; try congruence.
  exists built. auto.
Qed.

Lemma get_settings_data (a : App) (st : State H) (s : string) (p : SearchComboBox) :
  mapping_data a = [] ->
  In (s, p) (mapping_data (dialog_after (get_settings a st))) ->
  exists targets, p = populate targets.
Proof.
  intros Hempty. unfold get_settings, dialog_after.
  rewrite get_houdini_assets_run.
  destruct (host_houdini_assets (st_scene st) (from_selection a)) as [|asset assets];
    cbn -[collect_targets add_section fold_left DEFAULT_TARGETS];
    try (rewrite Hempty; contradiction).
  set (st1 := st).
  destruct (collect_targets (asset :: assets) [] st1) as [[inserted|e] st2];
    cbn -[collect_targets add_section fold_left DEFAULT_TARGETS];
    try (rewrite Hempty; contradiction).
  intros Hin.
  apply (add_sections_data _ ["general"; "rotation"]) in Hin.
  destruct Hin as [Hp | Hin]; [eexists; exact Hp |].
  simpl in Hin. rewrite Hempty in Hin. contradiction.
Qed.

(** C7: after [refresh], every item that was in the mapping layout is
    scheduled for deletion and the live widgets are the ones just built;
    every picker in [mapping_data] is a freshly populated one showing the
    empty placeholder; and outcome, scene state, selection, [mapping_data]
    and live widgets are the same whatever [mapping_data] and layout the
    dialog had before: two dialogs that agree on the selection check box
    come out of [refresh] alike. *)
Theorem refresh_keeps_no_mapping_state :
  forall (app : App) (st : State H),
    let r := refresh app st in
    (exists built,
        mapping_layout (dialog_after r)
        = (map schedule_delete (mapping_layout app) ++ built)%list
        /\ Forall (fun it => delete_later it = false) built
        /\ live_widgets (dialog_after r) = map widget built)
    /\ (forall s p, In (s, p) (mapping_data (dialog_after r)) ->
          currentText p = EmptyString /\ exists targets, p = populate targets)
    /\ (forall other : App,
          from_selection other = from_selection app ->
          let r' := refresh other st in
          fst (fst r') = fst (fst r)
          /\ snd r' = snd r
          /\ selection (dialog_after r') = selection (dialog_after r)
          /\ mapping_data (dialog_after r') = mapping_data (dialog_after r)
          /\ live_widgets (dialog_after r') = live_widgets (dialog_after r)).
Proof.
  intros app st r. subst r. unfold refresh.
  set (cleared := fun a : App =>
         with_mapping_data
           (with_mapping_layout a (map schedule_delete (mapping_layout a))) []).
  change (with_mapping_data
            (with_mapping_layout app (map schedule_delete (mapping_layout app))) [])
    with (cleared app).
  assert (Hlay : forall a b : App,
             from_selection a = from_selection b ->
             exists built,
               mapping_layout (dialog_after (get_settings (cleared a) st))
               = (map schedule_delete (mapping_layout a) ++ built)%list
               /\ mapping_layout (dialog_after (get_settings (cleared b) st))
                  = (map schedule_delete (mapping_layout b) ++ built)%list
               /\ Forall (fun it => delete_later it = false) built).
  { intros a b Hsel.
    destruct (get_settings_same (cleared a) (cleared b) st Hsel eq_refl)
      as (_ & _ & _ & _ & built & Ha & Hb & Hall).
    exists built. auto. }
  split; [| split].
  - destruct (Hlay app app eq_refl) as (built & Ha & _ & Hall).
    exists built. split; [exact Ha |]. split; [exact Hall |].
    unfold live_widgets. rewrite Ha. now rewrite live_after_schedule.
  - intros s p Hin.
    destruct (get_settings_data (cleared app) st s p eq_refl Hin) as [targets ->].
    split; [reflexivity | now exists targets].
  - intros other Hsel.
    change (with_mapping_data
              (with_mapping_layout other (map schedule_delete (mapping_layout other))) [])
      with (cleared other).
    destruct (get_settings_same (cleared other) (cleared app) st Hsel eq_refl)
      as (Ho & Hs & Hd & Hsl & _).
    destruct (Hlay other app Hsel) as (built & Ha & Hb & Hall).
    repeat split; auto.
    unfold live_widgets. rewrite Ha, Hb. now rewrite !live_after_schedule.
Qed.
End Refresh.

(** A dialog left over from an earlier scene: an old widget in the layout
    and a picker with a choice made. *)
Definition stale_dialog : App :=
  {| from_selection := true; name_field := "rocks";
     mapping_layout :=
       [{| widget := {| objectName := "general"; box_title := "General";
                        rows := [("scale", {| items := [EmptyString; "old"];
                                              currentText := "old" |})] |};
           delete_later := false |}];
     mapping_data := [("scale", {| items := [EmptyString; "old"]; currentText := "old" |})];
     selection := ["gone"] |}.

Definition blank_dialog : App :=
  {| from_selection := true; name_field := EmptyString; mapping_layout := [];
     mapping_data := []; selection := [] |}.

Lemma refresh_keeps_no_mapping_state_witness :
  mapping_data (dialog_after (refresh stale_dialog rig_state))
  = mapping_data (dialog_after (refresh blank_dialog rig_state))
  /\ live_widgets (dialog_after (refresh stale_dialog rig_state))
     = live_widgets (dialog_after (refresh blank_dialog rig_state))
  /\ map fst (mapping_data (dialog_after (refresh stale_dialog rig_state)))
     = [ "position"; "scale"; "shear"; "objectIndex"; "visibility"; "rotation";
         "aimDirection"; "aimPosition"; "aimAxis"; "aimUpAxis"; "aimWorldUp" ]
  /\ map objectName (live_widgets (dialog_after (refresh stale_dialog rig_state)))
     = [ "general"; "rotation" ].
Proof.
  destruct (refresh_keeps_no_mapping_state (H := Toy.host) blank_dialog rig_state)
    as (_ & _ & Hsame).
  destruct (Hsame stale_dialog eq_refl) as (_ & _ & _ & Hd & Hl).
  repeat split; try assumption; reflexivity.
Defined.

(** *** Two runs against hosts that answer alike *)

Section TwoRuns.
Context {H1 H2 : Host}.
Variable R : scene H1 -> scene H2 -> Prop.

(** Scenes related by [R] give the same answer to every query and the same
    result to every edit, and an edit leads to related scenes again. *)
Record same_host_responses : Prop := {
  same_answers : forall s1 s2 q, R s1 s2 -> query H1 s1 q = query H2 s2 q;
  same_results : forall s1 s2 e, R s1 s2 ->
                   fst (exec H1 s1 e) = fst (exec H2 s2 e)
                   /\ R (snd (exec H1 s1 e)) (snd (exec H2 s2 e))
}.

Definition same_state (st1 : State H1) (st2 : State H2) : Prop :=
  R (st_scene st1) (st_scene st2) /\ st_log st1 = st_log st2.

(** From related states the two computations have the same outcome and
    reach related states: the same edits were issued. *)
Definition alike {A} (m1 : M H1 A) (m2 : M H2 A) : Prop :=
  forall st1 st2, same_state st1 st2 ->
    fst (m1 st1) = fst (m2 st2) /\ same_state (snd (m1 st1)) (snd (m2 st2)).

Hypothesis Hhost : same_host_responses.
Hypothesis Hset : forall l, set_order H1 l = set_order H2 l.

Lemma alike_ret {A} (a : A) : alike (ret a) (ret a).
Proof. intros st1 st2 Hs. now split. Qed.

Lemma alike_raise {A} (e : Exn) : alike (raise (A := A) e) (raise e).
Proof. intros st1 st2 Hs. now split. Qed.

Lemma alike_ask (q : Query) : alike (ask q) (ask q).
Proof.
  intros st1 st2 [Hr Hl]. unfold ask. simpl. split; [| now split].
  now rewrite (same_answers Hhost _ _ q Hr).
Qed.

Lemma alike_edit (e : Edit) : alike (edit e) (edit e).
Proof.
  intros st1 st2 [Hr Hl]. unfold edit.
  destruct (same_results Hhost _ _ e Hr) as [Ho Hs].
  destruct (exec H1 (st_scene st1) e) as [o1 s1].
  destruct (exec H2 (st_scene st2) e) as [o2 s2]. simpl in *.
  split; [exact Ho |]. split; [exact Hs | simpl; now rewrite Hl].
Qed.

Lemma alike_assert (c : bool) (msg : string) : alike (assert c msg) (assert c msg).
Proof. destruct c; [apply alike_ret | apply alike_raise]. Qed.

Lemma alike_bind {A B} (m1 : M H1 A) (m2 : M H2 A) (k1 : A -> M H1 B) (k2 : A -> M H2 B) :
  alike m1 m2 -> (forall a, alike (k1 a) (k2 a)) -> alike (bind m1 k1) (bind m2 k2).
Proof.
  intros Hm Hk st1 st2 Hs. unfold bind.
  destruct (Hm st1 st2 Hs) as [Ho Hs'].
  destruct (m1 st1) as [[a1|e1] s1]; destruct (m2 st2) as [[a2|e2] s2];
    simpl in Ho; try discriminate.
  - injection Ho as <-. now apply Hk.
  - injection Ho as <-. now split.
Qed.

Lemma alike_try_finally {A} (m1 : M H1 A) (m2 : M H2 A) (f1 : M H1 unit) (f2 : M H2 unit) :
  alike m1 m2 -> alike f1 f2 -> alike (try_finally m1 f1) (try_finally m2 f2).
Proof.
  intros Hm Hf st1 st2 Hs. unfold try_finally.
  destruct (Hm st1 st2 Hs) as [Ho Hs'].
  destruct (m1 st1) as [o1 s1]; destruct (m2 st2) as [o2 s2]. simpl in Ho, Hs'.
  destruct (Hf s1 s2 Hs') as [Hfo Hfs].
  destruct (f1 s1) as [[u1|e1] t1]; destruct (f2 s2) as [[u2|e2] t2];
    simpl in *; try discriminate.
  - now split.
  - injection Hfo as <-. now split.
Qed.

Lemma alike_pass_runtime_error {A} (m1 : M H1 A) (m2 : M H2 A) :
  alike m1 m2 -> alike (pass_runtime_error m1) (pass_runtime_error m2).
Proof.
  intros Hm st1 st2 Hs. unfold pass_runtime_error.
  destruct (Hm st1 st2 Hs) as [Ho Hs'].
  destruct (m1 st1) as [[a1|e1] s1]; destruct (m2 st2) as [[a2|e2] s2];
    simpl in Ho; try discriminate.
  - now split.
  - injection Ho as <-. destruct e1; now split.
Qed.

Lemma alike_for_enumerate {A} (b1 : nat -> A -> M H1 unit) (b2 : nat -> A -> M H2 unit)
    (l : list A) :
  (forall i x, alike (b1 i x) (b2 i x)) ->
  forall start, alike (for_enumerate start l b1) (for_enumerate start l b2).
Proof.
  intros Hb. induction l as [|x r IH]; intros start; simpl.
  - apply alike_ret.
  - apply alike_bind; [apply Hb | intros _; apply IH].
Qed.

Ltac alike_step :=
  first
    [ apply alike_ret | apply alike_raise
    | match goal with |- alike (ask ?q) _ => exact (alike_ask q) end
    | match goal with |- alike (edit ?e) _ => exact (alike_edit e) end
    | apply alike_assert
    | apply alike_pass_runtime_error
    | apply alike_for_enumerate; intros ? ?
    | apply alike_bind; [| intros ?] ].

Lemma get_particle_system_alike (asset : string) :
  alike (get_particle_system asset) (get_particle_system asset).
Proof.
  unfold get_particle_system.
  apply alike_bind; [alike_step | intros connections].
  apply alike_bind; [alike_step | intros descendents].
  destruct connections as [l|]; [| apply alike_raise].
  destruct (filter_against true l descendents) as [c|e]; [| apply alike_raise].
  rewrite Hset.
  apply alike_bind; [apply alike_assert | intros _].
  destruct (set_order H2 c); alike_step.
Qed.

Lemma get_input_hierarchy_alike (instancer : string) :
  alike (get_input_hierarchy instancer) (get_input_hierarchy instancer).
Proof.
  unfold get_input_hierarchy.
  apply alike_bind; [alike_step | intros ty].
  destruct (negb (String.eqb ty "instancer")); alike_step.
Qed.

Lemma collect_hierarchy_alike (instancers : list string) :
  forall inserted,
    alike (collect_hierarchy instancers inserted) (collect_hierarchy instancers inserted).
Proof.
  induction instancers as [|inst rest IH]; intros inserted; simpl.
  - apply alike_ret.
  - apply alike_bind; [apply get_input_hierarchy_alike | intros [l|]];
      [apply IH | apply alike_raise].
Qed.

Lemma map_houdini_asset_alike (asset : string) :
  alike (map_houdini_asset asset) (map_houdini_asset asset).
Proof.
  unfold map_houdini_asset, get_instancers, get_particle_attributes.
  apply alike_bind; [alike_step | intros [l|]]; [| apply alike_raise].
  apply alike_bind; [apply collect_hierarchy_alike | intros inserted].
  apply alike_bind; [apply get_particle_system_alike | intros particle_node].
  apply alike_bind; [alike_step | intros attributes].
  rewrite Hset. apply alike_ret.
Qed.

Lemma replicate_asset_alike (name nucleus group : string)
    (attrs : list (string * string)) (i : nat) (entry : string * AssetData) :
  alike (replicate_asset name nucleus group attrs i entry)
        (replicate_asset name nucleus group attrs i entry).
Proof.
  destruct entry as [asset mapping]. unfold replicate_asset.
  destruct (particle_system mapping) as [[|[particle attributes] more]|];
    try apply alike_raise.
  apply alike_bind; [alike_step | intros found].
  apply alike_bind; [apply alike_assert | intros _].
  destruct (match found with Some l => l | None => [] end) as [|data_attr rest];
    [apply alike_raise |].
  apply alike_bind; [alike_step | intros new_systems].
  apply alike_bind; [apply alike_assert | intros _].
  destruct new_systems as [|new_system others]; [apply alike_raise |].
  repeat alike_step.
  destruct (keyword_clash attrs); [apply alike_raise |].
  repeat alike_step.
Qed.

Lemma replicate_alike (name : string) (asset_mapping : list (string * AssetData))
    (attribute_mapping : option (list (string * string))) :
  alike (replicate name asset_mapping attribute_mapping)
        (replicate name asset_mapping attribute_mapping).
Proof.
  unfold replicate, pick_nucleus.
  apply alike_bind.
  - apply alike_bind; [alike_step | intros [|first others]]; alike_step.
  - intros nucleus. repeat alike_step. apply replicate_asset_alike.
Qed.
Lemma get_shape_transforms_alike (asset : string) :
  alike (get_shape_transforms asset) (get_shape_transforms asset).
Proof.
  unfold get_shape_transforms.
  apply alike_bind; [alike_step | intros ty].
  destruct (negb (String.eqb ty "houdiniAsset")); [apply alike_raise |].
  apply alike_bind; [alike_step | intros [l|]]; [| apply alike_raise].
  rewrite Hset. apply alike_ret.
Qed.

Lemma gather_instancers_alike (instancers : list string) :
  forall acc, alike (gather_instancers instancers acc) (gather_instancers instancers acc).
Proof.
  induction instancers as [|inst rest IH]; intros acc; simpl.
  - apply alike_ret.
  - apply alike_bind; [alike_step | intros [h|]]; [| apply alike_ret].
    destruct (connection_pairs h); [apply IH | apply alike_ret].
Qed.

Lemma gather_nparticles_alike (nparticles : list string) :
  forall acc, alike (gather_nparticles nparticles acc) (gather_nparticles nparticles acc).
Proof.
  induction nparticles as [|np rest IH]; intros acc; simpl.
  - apply alike_ret.
  - apply alike_bind; [alike_step | intros [[|inst more]|]]; try apply IH.
    apply alike_bind; [apply gather_instancers_alike | intros [acc' [e|]]];
      [apply alike_ret | apply IH].
Qed.

Lemma gather_connections_alike (asset : string) :
  alike (gather_connections asset) (gather_connections asset).
Proof.
  unfold gather_connections.
  apply alike_bind; [alike_step | intros connected].
  apply alike_bind; [alike_step | intros descendents].
  destruct connected as [ps|]; [| apply alike_ret].
  destruct (filter_against false ps descendents);
    [apply gather_nparticles_alike | apply alike_ret].
Qed.

Lemma maintain_connections_alike (asset : string) (b1 : M H1 unit) (b2 : M H2 unit) :
  alike b1 b2 -> alike (maintain_connections asset b1) (maintain_connections asset b2).
Proof.
  intros Hb. unfold maintain_connections, disconnect_all, reconnect_all, for_each.
  apply alike_bind; [apply gather_connections_alike | intros [cs err]].
  apply alike_try_finally.
  - destruct err as [e|]; [apply alike_raise |].
    apply alike_bind; [| intros _; exact Hb].
    apply alike_for_enumerate. intros i c. alike_step.
  - apply alike_for_enumerate. intros i c. alike_step.
Qed.

Lemma update_asset_alike (asset : string) :
  alike (update_asset asset) (update_asset asset).
Proof.
  unfold update_asset.
  apply alike_bind; [apply get_shape_transforms_alike | intros before_update].
  apply alike_bind; [alike_step | intros asset_hierarchy].
  destruct before_update as [|first others]; [apply alike_raise |].
  apply alike_bind; [alike_step | intros found].
  destruct (filter_against false (match found with Some l => l | None => [] end)
              asset_hierarchy) as [instancers|e]; [| apply alike_raise].
  apply alike_bind; [apply alike_assert | intros _].
  destruct instancers as [|instancer more]; [apply alike_raise |].
  apply alike_bind; [apply maintain_connections_alike; alike_step | intros _].
  apply alike_bind; [apply get_shape_transforms_alike | intros after_update].
  rewrite Hset.
  apply alike_bind; [| intros _; apply alike_ret].
  apply alike_for_enumerate. intros i shape. alike_step.
Qed.
End TwoRuns.

(** C6: take two runs, on hosts whose scenes are related so that related
    scenes give the same answer to every query and the same result to every
    edit and stay related (and on one interpreter, so that sets iterate
    alike).  Then [map_houdini_asset], [replicate] and [update_asset], given
    the same arguments, have the same outcome (return value or exception)
    and issue the same sequence of edits in both runs, and end in related
    scenes. *)
Theorem library_operations_are_deterministic :
  forall (H1 H2 : Host) (R : scene H1 -> scene H2 -> Prop),
    same_host_responses R ->
    (forall l, set_order H1 l = set_order H2 l) ->
    forall (sc1 : scene H1) (sc2 : scene H2),
      R sc1 sc2 ->
      (forall asset,
          fst (run (map_houdini_asset asset) sc1) = fst (run (map_houdini_asset asset) sc2)
          /\ same_state R (snd (run (map_houdini_asset asset) sc1))
                          (snd (run (map_houdini_asset asset) sc2)))
      /\ (forall name asset_mapping attribute_mapping,
             fst (run (replicate name asset_mapping attribute_mapping) sc1)
             = fst (run (replicate name asset_mapping attribute_mapping) sc2)
             /\ same_state R
                  (snd (run (replicate name asset_mapping attribute_mapping) sc1))
                  (snd (run (replicate name asset_mapping attribute_mapping) sc2)))
      /\ (forall asset,
             fst (run (update_asset asset) sc1) = fst (run (update_asset asset) sc2)
             /\ same_state R (snd (run (update_asset asset) sc1))
                             (snd (run (update_asset asset) sc2))).
Proof.
  intros H1 H2 R Hhost Hset sc1 sc2 Hr.
  assert (Hstart : same_state R (Build_State H1 sc1 []) (Build_State H2 sc2 []))
    by (split; [exact Hr | reflexivity]).
  split; [| split]; intros.
  - exact (map_houdini_asset_alike R Hhost Hset asset _ _ Hstart).
  - exact (replicate_alike R Hhost name asset_mapping attribute_mapping0 _ _ Hstart).
  - exact (update_asset_alike R Hhost Hset asset _ _ Hstart).
Qed.

(** A second host: the small host with a count of the edits it has executed,
    which no query shows. *)
Definition counting_host : Host :=
  Build_Host (Toy.Scene * nat)
    (fun sc q => Toy.query (fst sc) q)
    (fun sc e => (fst (Toy.exec (fst sc) e), (snd (Toy.exec (fst sc) e), S (snd sc))))
    (Toy.dedup []).

Definition same_scene (sc1 : scene counting_host) (sc2 : scene Toy.host) : Prop :=
  fst sc1 = sc2.

Lemma counting_host_responds_alike : same_host_responses same_scene.
Proof.
  split.
  - intros [s1 n] s2 q E. unfold same_scene in E. simpl in E. subst s2. reflexivity.
  - intros [s1 n] s2 e E. unfold same_scene in E. simpl in E. subst s2.
    split; reflexivity.
Qed.

Lemma library_operations_are_deterministic_witness :
  fst (run (H := counting_host) (update_asset "asset1") (Toy.rig, 7))
  = fst (run (H := Toy.host) (update_asset "asset1") Toy.rig)
  /\ same_state same_scene
       (snd (run (H := counting_host) (update_asset "asset1") (Toy.rig, 7)))
       (snd (run (H := Toy.host) (update_asset "asset1") Toy.rig)).
Proof.
  destruct (library_operations_are_deterministic counting_host Toy.host same_scene
              counting_host_responds_alike (fun l => eq_refl) (Toy.rig, 7) Toy.rig eq_refl)
    as (_ & _ & Hupdate).
  exact (Hupdate "asset1").
Defined.

(** *** maintain_connections *)

Definition same_set (l1 l2 : list Connection) : Prop :=
  forall c, In c l1 <-> In c l2.

(** Every destination plug has at most one source. *)
Definition single_driver (l : list Connection) : Prop :=
  forall c c', In c l -> In c' l -> snd c = snd c' -> c = c'.

Lemma connection_eq_dec (a b : Connection) : {a = b} + {a <> b}.
Proof. decide equality; apply string_dec. Qed.

Section Maintain.
Context {H : Host}.

(** The connections of a scene, as far as the host's edits and queries are
    concerned. *)
Variable connections : scene H -> list Connection.

Definition conns_of (st : State H) : list Connection := connections (st_scene st).

(** How the host's connection commands act on the connections of the scene,
    and what the plug query on an instancer's [inputHierarchy] lists. *)
Record connection_laws : Prop := {
  disconnect_ok : forall sc src dst sc',
      exec H sc (EDisconnectAttr src dst) = (Ok tt, sc') ->
      forall c, In c (connections sc') <-> In c (connections sc) /\ c <> (src, dst);
  disconnect_failed : forall sc src dst e sc',
      exec H sc (EDisconnectAttr src dst) = (Raise e, sc') ->
      same_set (connections sc') (connections sc);
  connect_forced : forall sc src dst sc',
      exec H sc (EConnectAttr src dst true) = (Ok tt, sc') ->
      forall c, In c (connections sc')
                <-> c = (src, dst) \/ In c (connections sc) /\ snd c <> dst;
  plug_pairs_sound : forall sc instancer h ps,
      query H sc (QListConnections (instancer ++ ".inputHierarchy") with_plug_pairs)
      = Some h ->
      connection_pairs h = Ok ps ->
      forall c, In c ps -> In c (connections sc)
}.

Hypothesis Hlaws : connection_laws.

Lemma gather_instancers_sound (instancers : list string) :
  forall (acc : list Connection) (st : State H),
    (forall c, In c acc -> In c (conns_of st)) ->
    exists cs err,
      gather_instancers instancers acc st = (Ok (cs, err), st)
      /\ forall c, In c cs -> In c (conns_of st).
Proof.
  induction instancers as [|inst rest IH]; intros acc st Hacc;
    cbn [gather_instancers].
  - exists acc, None. now split.
  - rewrite bind_ask.
    destruct (query H (st_scene st)
                (QListConnections (inst ++ ".inputHierarchy") with_plug_pairs))
      as [h|] eqn:Hq.
    + destruct (connection_pairs h) as [ps|e] eqn:Hps.
      * apply IH. intros c Hc. apply in_app_or in Hc. destruct Hc as [Hc | Hc].
        -- now apply Hacc.
        -- exact (plug_pairs_sound Hlaws _ _ _ _ Hq Hps c Hc).
      * exists acc, (Some e). now split.
    + exists acc, (Some none_no_len). now split.
Qed.

Lemma gather_nparticles_sound (nparticles : list string) :
  forall (acc : list Connection) (st : State H),
    (forall c, In c acc -> In c (conns_of st)) ->
    exists cs err,
      gather_nparticles nparticles acc st = (Ok (cs, err), st)
      /\ forall c, In c cs -> In c (conns_of st).
Proof.
  induction nparticles as [|np rest IH]; intros acc st Hacc;
    cbn [gather_nparticles].
  - exists acc, None. now split.
  - rewrite bind_ask.
    destruct (query H (st_scene st)
                (QListConnections np (by_type_dest false false "instancer")))
      as [[|inst more]|]; try (now apply IH).
    destruct (gather_instancers_sound (inst :: more) acc st Hacc)
      as (cs & err & Hrun & Hcs).
    rewrite (bind_ok _ _ _ _ _ Hrun).
    destruct err as [e|]; [| now apply IH].
    exists cs, (Some e). now split.
Qed.

(** Gathering only asks: it returns, leaves the state alone, and what it
    gathered are connections of the scene. *)
Lemma gather_connections_sound (asset : string) (st : State H) :
  exists cs err,
    gather_connections asset st = (Ok (cs, err), st)
    /\ forall c, In c cs -> In c (conns_of st).
Proof.
  unfold gather_connections. rewrite bind_ask, bind_ask.
  destruct (query H (st_scene st)
              (QListConnections asset (by_type_dest true true "nParticle"))) as [ps|].
  - destruct (filter_against false ps (query H (st_scene st) (QListRelatives asset None)))
      as [non_descendents|e].
    + apply gather_nparticles_sound. intros c [].
    + exists [], (Some e). split; [reflexivity | intros c []].
  - exists [], (Some none_not_iterable). split; [reflexivity | intros c []].
Qed.
Definition disconnect_one (_ : nat) (c : Connection) : M H unit :=
  edit (EDisconnectAttr (fst c) (snd c)).

Definition reconnect_one (_ : nat) (c : Connection) : M H unit :=
  edit (EConnectAttr (fst c) (snd c) true).

Lemma disconnect_one_run {B} (i : nat) (c : Connection) (k : unit -> M H B)
    (st : State H) :
  bind (disconnect_one i c) k st =
    match exec H (st_scene st) (EDisconnectAttr (fst c) (snd c)) with
    | (Ok r, sc) => k r (logged st sc (EDisconnectAttr (fst c) (snd c)))
    | (Raise x, sc) => (Raise x, logged st sc (EDisconnectAttr (fst c) (snd c)))
    end.
Proof. exact (bind_edit_run (EDisconnectAttr (fst c) (snd c)) k st). Qed.

Lemma reconnect_one_run {B} (i : nat) (c : Connection) (k : unit -> M H B)
    (st : State H) :
  bind (reconnect_one i c) k st =
    match exec H (st_scene st) (EConnectAttr (fst c) (snd c) true) with
    | (Ok r, sc) => k r (logged st sc (EConnectAttr (fst c) (snd c) true))
    | (Raise x, sc) => (Raise x, logged st sc (EConnectAttr (fst c) (snd c) true))
    end.
Proof. exact (bind_edit_run (EConnectAttr (fst c) (snd c) true) k st). Qed.

(** The breaking loop removes the connections it got to, and only those. *)
Lemma disconnect_loop_effect (cs : list Connection) :
  forall (start : nat) (st : State H),
    exists done,
      incl done cs
      /\ forall c, In c (conns_of (snd (for_enumerate start cs disconnect_one st)))
                   <-> In c (conns_of st) /\ ~ In c done.
Proof.
  induction cs as [|c0 rest IH]; intros start st; cbn [for_enumerate].
  - exists []. split; [apply incl_refl |]. intros c. simpl. tauto.
  - rewrite disconnect_one_run.
    destruct (exec H (st_scene st) (EDisconnectAttr (fst c0) (snd c0)))
      as [[[]|e] sc] eqn:E.
    + destruct (IH (S start) (logged st sc (EDisconnectAttr (fst c0) (snd c0))))
        as (done & Hincl & Hdone).
      exists (c0 :: done). split.
      * intros x [<- | Hx]; [now left | right; now apply Hincl].
      * intros c. rewrite Hdone. unfold conns_of, logged. simpl st_scene.
        rewrite (disconnect_ok Hlaws _ _ _ _ E c).
        rewrite <- surjective_pairing. simpl. intuition congruence.
    + exists []. split; [intros x []|].
      intros c. unfold conns_of, logged. simpl.
      rewrite (disconnect_failed Hlaws _ _ _ _ _ E c). tauto.
Qed.

(** A restoring loop that completes leaves the scene with all of [cs]
    connected, and nothing else into the plugs [cs] feeds. *)
Lemma reconnect_loop_done (cs : list Connection) :
  single_driver cs ->
  forall (start : nat) (st st' : State H),
    for_enumerate start cs reconnect_one st = (Ok tt, st') ->
    forall c, In c (conns_of st')
              <-> In c cs \/ In c (conns_of st) /\ ~ In (snd c) (map snd cs).
Proof.
  induction cs as [|c0 rest IH]; intros Hsingle start st st'; cbn [for_enumerate].
  - intros [= <-] c. simpl. tauto.
  - rewrite reconnect_one_run.
    destruct (exec H (st_scene st) (EConnectAttr (fst c0) (snd c0) true))
      as [[[]|x] sc] eqn:E; [| discriminate].
    intros Hrest.
    assert (Hrest_single : single_driver rest)
      by (intros c c' Hc Hc'; apply Hsingle; now right).
    intros c. rewrite (IH Hrest_single _ _ _ Hrest c).
    unfold conns_of, logged. simpl st_scene.
    rewrite (connect_forced Hlaws _ _ _ _ E c). rewrite <- surjective_pairing.
    simpl. split.
    + intros [Hc | [[-> | [Hc Hn]] Hnot]]; auto.
      right. split; [exact Hc |]. intros [Hs | Hs]; [now symmetry in Hs | contradiction].
    + intros [[<- | Hc] | [Hc Hnot]]; auto.
      * destruct (in_dec string_dec (snd c0) (map snd rest)) as [Hin | Hout]; auto.
        left. apply in_map_iff in Hin. destruct Hin as [c' [Hs Hc']].
        rewrite <- (Hsingle c' c0 (or_intror Hc') (or_introl eq_refl) Hs). exact Hc'.
      * right. split; [right; split; [exact Hc | intros Hs; apply Hnot; now left]
                      | intros Hs; apply Hnot; now right].
Qed.

(** The connections [maintain_connections] records for [asset] in state
    [st]. *)
Definition gathered (asset : string) (st : State H) : list Connection :=
  match fst (gather_connections asset st) with
  | Ok r => fst r
  | Raise _ => []
  end.

(** The exception that stopped the recording, if one did. *)
Definition gather_error (asset : string) (st : State H) : option Exn :=
  match fst (gather_connections asset st) with
  | Ok r => snd r
  | Raise e => Some e
  end.

(** The [try] block of the context from state [st]: the exception that
    stopped the recording, or else the breaking loop and the body. *)
Definition try_block (asset : string) (body : M H unit) : M H unit :=
  fun st =>
    match gather_error asset st with
    | Some e => raise e st
    | None => (disconnect_all (gathered asset st) ;;; body) st
    end.

Lemma maintain_connections_try_finally (asset : string) (body : M H unit)
    (st : State H) :
  maintain_connections asset body st
  = try_finally (try_block asset body) (reconnect_all (gathered asset st)) st.
Proof.
  unfold try_block, gathered, gather_error, maintain_connections.
  destruct (gather_connections_sound asset st) as (cs & err & Hg & _).
  rewrite (bind_ok _ _ _ _ _ Hg). unfold try_finally. cbv beta.
  rewrite Hg. cbn [fst snd]. destruct err; reflexivity.
Qed.

End Maintain.

(** The small host obeys the laws. *)
Lemma conn_eqb_spec (a b : Connection) : Toy.conn_eqb a b = true <-> a = b.
Proof.
  unfold Toy.conn_eqb. rewrite andb_true_iff, !String.eqb_eq.
  destruct a, b; simpl. split; [intros [-> ->]; reflexivity | intros [= -> ->]; auto].
Qed.

Lemma plug_pairs_of_scene (target : string) (l : list Connection) :
  connection_pairs
    (flat_map (fun c => if prefix target (snd c) then [snd c; fst c] else []) l)
  = Ok (filter (fun c => prefix target (snd c)) l).
Proof.
  induction l as [|[src dst] r IH]; simpl; [reflexivity |].
  destruct (prefix target dst); simpl; [now rewrite IH | exact IH].
Qed.

Lemma nonempty_some (l h : list string) : Toy.nonempty l = Some h -> h = l.
Proof. destruct l; [discriminate | now intros [= <-]]. Qed.

Lemma toy_connection_laws : connection_laws (H := Toy.host) Toy.conns.
Proof.
  split.
  - intros sc src dst sc'. simpl. unfold Toy.exec.
    destruct (Toy.connected sc (src, dst)); [| discriminate].
    intros [= <-] c. simpl. unfold Toy.without. rewrite filter_In, negb_true_iff.
    split.
    + intros [Hc Hne]. split; [exact Hc |]. intros ->.
      assert (Toy.conn_eqb (src, dst) (src, dst) = true) by now apply conn_eqb_spec.
      congruence.
    + intros [Hc Hne]. split; [exact Hc |].
      destruct (Toy.conn_eqb (src, dst) c) eqn:E; [| reflexivity].
      apply conn_eqb_spec in E. now elim Hne.
  - intros sc src dst e sc'. simpl. unfold Toy.exec.
    destruct (Toy.connected sc (src, dst)); [discriminate |].
    intros [= _ <-] c. tauto.
  - intros sc src dst sc'. simpl. unfold Toy.exec.
    intros [= <-] c. simpl. rewrite in_app_iff. unfold Toy.not_into.
    rewrite filter_In, negb_true_iff, String.eqb_neq. simpl.
    split.
    + intros [[Hc Hn] | [<- | []]]; auto.
    + intros [-> | [Hc Hn]]; auto.
  - intros sc instancer h ps. simpl. unfold Toy.list_connections. simpl.
    intros Hq. apply nonempty_some in Hq. subst h.
    rewrite plug_pairs_of_scene. intros [= <-] c Hc.
    apply filter_In in Hc. tauto.
Qed.

Lemma rig_single_driver : single_driver (Toy.conns Toy.rig).
Proof.
  assert (Hdst : NoDup (map snd (Toy.conns Toy.rig))).
  { simpl. repeat (constructor; [simpl; intuition discriminate |]). constructor. }
  intros c c' Hc Hc' Hs.
  revert Hdst c c' Hc Hc' Hs. generalize (Toy.conns Toy.rig).
  induction l as [|x r IH]; intros Hnd c c' Hc Hc' Hs; [contradiction |].
  simpl in Hnd. inversion Hnd as [|? ? Hx Hr]; subst.
  destruct Hc as [<- | Hc]; destruct Hc' as [<- | Hc']; auto.
  - elim Hx. rewrite Hs. now apply in_map.
  - elim Hx. rewrite <- Hs. now apply in_map.
Qed.

(** A stricter host: like Maya, it refuses a connection when the node of
    either plug is missing; [sync] is what the MEL commands do to the
    scene. *)
Definition has_node (sc : Toy.Scene) (plug : string) : bool :=
  existsb (fun n => String.eqb (fst n) (Toy.node_of plug)) (Toy.nodes sc).

Definition strict_exec (sync : Toy.Scene -> Toy.Scene) (sc : Toy.Scene) (e : Edit)
  : Outcome (result e) * Toy.Scene :=
  match e as e0 return Outcome (result e0) * Toy.Scene with
  | EMelEval _ => (Ok tt, sync sc)
  | EConnectAttr src dst force =>
      if has_node sc src && has_node sc dst
      then Toy.exec sc (EConnectAttr src dst force)
      else (Raise (RuntimeError "The attribute cannot be found"), sc)
  | e0 => Toy.exec sc e0
  end.

Definition strict_host (sync : Toy.Scene -> Toy.Scene) : Host :=
  Build_Host Toy.Scene Toy.query (strict_exec sync) (Toy.dedup []).

Lemma strict_connection_laws (sync : Toy.Scene -> Toy.Scene) :
  connection_laws (H := strict_host sync) Toy.conns.
Proof.
  destruct toy_connection_laws as [Hdis Hfail Hforced Hpairs].
  split.
  - intros sc src dst sc' E. exact (Hdis sc src dst sc' E).
  - intros sc src dst e sc' E. exact (Hfail sc src dst e sc' E).
  - intros sc src dst sc'. simpl. unfold strict_exec.
    destruct (has_node sc src && has_node sc dst); [| discriminate].
    intros E. exact (Hforced sc src dst sc' E).
  - intros sc instancer h ps Hq Hps. exact (Hpairs sc instancer h ps Hq Hps).
Qed.

(** The sync of an asset that no longer outputs [node]: the node goes, and
    its connections with it. *)
Definition drop_node (node : string) (sc : Toy.Scene) : Toy.Scene :=
  {| Toy.nodes := filter (fun n => negb (String.eqb (fst n) node)) (Toy.nodes sc);
     Toy.parents := filter (fun pc => negb (String.eqb (snd pc) node)) (Toy.parents sc);
     Toy.conns := filter (fun c => negb (String.eqb (Toy.node_of (fst c)) node)
                                   && negb (String.eqb (Toy.node_of (snd c)) node))
                    (Toy.conns sc);
     Toy.dynamic_attrs := Toy.dynamic_attrs sc;
     Toy.selected := Toy.selected sc |}.

(** The claim that the context restores every connection it disconnected,
    read with the host's laws and for the recorded connections that the
    host is willing to make in the scene the context leaves. *)
Definition restores_every_connection_it_disconnected : Prop :=
  forall (H : Host) (connections : scene H -> list Connection),
    connection_laws connections ->
    forall (asset : string) (body : M H unit) (st : State H),
      single_driver (connections (st_scene st)) ->
      let after := st_scene (snd (maintain_connections asset body st)) in
      forall c,
        In c (gathered asset st) ->
        (exists sc', exec H after (EConnectAttr (fst c) (snd c) true) = (Ok tt, sc')) ->
        In c (connections after).



(** ** Further properties of lib.py *)

(** *** The query functions leave the state alone *)

Section ReadOnly.
Context {H : Host}.

(** [m] gives back the state it was run in, whatever its outcome. *)
Definition read_only {A} (m : M H A) : Prop := forall st, snd (m st) = st.

Lemma read_only_ret {A} (a : A) : read_only (ret a).
Proof. intros st. reflexivity. Qed.

Lemma read_only_raise {A} (e : Exn) : read_only (raise (A := A) e).
Proof. intros st. reflexivity. Qed.

Lemma read_only_ask (q : Query) : read_only (ask q).
Proof. intros st. reflexivity. Qed.

Lemma read_only_assert (c : bool) (msg : string) : read_only (assert c msg).
Proof. destruct c; intros st; reflexivity. Qed.

Lemma read_only_bind {A B} (m : M H A) (k : A -> M H B) :
  read_only m -> (forall a, read_only (k a)) -> read_only (bind m k).
Proof.
  intros Hm Hk st. unfold bind. specialize (Hm st).
  destruct (m st) as [[a|e] st1]; simpl in Hm; subst st1.
  - apply Hk.
  - reflexivity.
Qed.

Ltac read_only_step :=
  first
    [ apply read_only_ret | apply read_only_raise
    | match goal with |- read_only (ask ?q) => exact (read_only_ask q) end
    | apply read_only_assert
    | apply read_only_bind; [| intros ?] ].

Lemma get_houdini_assets_read_only (selected : bool) :
  read_only (get_houdini_assets selected).
Proof. unfold get_houdini_assets. destruct selected; read_only_step. Qed.

Lemma get_shape_transforms_read_only (asset : string) :
  read_only (get_shape_transforms asset).
Proof.
  unfold get_shape_transforms.
  apply read_only_bind; [read_only_step | intros ty].
  destruct (negb (String.eqb ty "houdiniAsset")); [read_only_step |].
  apply read_only_bind; [read_only_step | intros [l|]]; read_only_step.
Qed.

Lemma get_particle_system_read_only (asset : string) :
  read_only (get_particle_system asset).
Proof.
  unfold get_particle_system.
  apply read_only_bind; [read_only_step | intros connections].
  apply read_only_bind; [read_only_step | intros descendents].
  destruct connections as [l|]; [| read_only_step].
  destruct (filter_against true l descendents) as [c|e]; [| read_only_step].
  apply read_only_bind; [read_only_step | intros _].
  destruct (set_order H c); read_only_step.
Qed.

Lemma get_input_hierarchy_read_only (instancer : string) :
  read_only (get_input_hierarchy instancer).
Proof.
  unfold get_input_hierarchy.
  apply read_only_bind; [read_only_step | intros ty].
  destruct (negb (String.eqb ty "instancer")); read_only_step.
Qed.

Lemma collect_hierarchy_read_only (instancers : list string) :
  forall inserted, read_only (collect_hierarchy instancers inserted).
Proof.
  induction instancers as [|inst rest IH]; intros inserted; cbn [collect_hierarchy].
  - read_only_step.
  - apply read_only_bind; [apply get_input_hierarchy_read_only | intros [l|]];
      [apply IH | read_only_step].
Qed.

Lemma map_houdini_asset_read_only (asset : string) :
  read_only (map_houdini_asset asset).
Proof.
  unfold map_houdini_asset, get_instancers, get_particle_attributes.
  apply read_only_bind; [read_only_step | intros [l|]]; [| read_only_step].
  apply read_only_bind; [apply collect_hierarchy_read_only | intros inserted].
  apply read_only_bind; [apply get_particle_system_read_only | intros particle_node].
  apply read_only_bind; [read_only_step | intros attributes].
  read_only_step.
Qed.

Lemma collect_targets_read_only (assets : list string) :
  forall inserted, read_only (collect_targets assets inserted).
Proof.
  induction assets as [|asset rest IH]; intros inserted; cbn [collect_targets].
  - read_only_step.
  - unfold get_particle_attributes.
    apply read_only_bind; [apply get_particle_system_read_only | intros particle].
    apply read_only_bind; [read_only_step | intros [l|]]; [apply IH | read_only_step].
Qed.

(** X1: the functions of lib that only look at the scene
    ([get_houdini_assets], [get_shape_transforms], [get_particle_system],
    [get_particle_attributes], [get_instancers], [get_input_hierarchy],
    [map_houdini_asset]) hand back the scene they were given and log no edit,
    whether they return or raise. *)
Theorem lib_lookups_change_nothing :
  forall (st : State H),
    (forall selected, snd (get_houdini_assets selected st) = st)
    /\ (forall asset, snd (get_shape_transforms asset st) = st)
    /\ (forall asset, snd (get_particle_system asset st) = st)
    /\ (forall node, snd (get_particle_attributes node st) = st)
    /\ (forall asset, snd (get_instancers asset st) = st)
    /\ (forall instancer, snd (get_input_hierarchy instancer st) = st)
    /\ (forall asset, snd (map_houdini_asset asset st) = st).
Proof.
  intros st. repeat split; intros.
  - apply get_houdini_assets_read_only.
  - apply get_shape_transforms_read_only.
  - apply get_particle_system_read_only.
  - apply get_input_hierarchy_read_only.
  - apply map_houdini_asset_read_only.
Qed.
End ReadOnly.

(** *** get_particle_system and map_houdini_asset, when they return *)

Section ParticleSystemReturns.
Context {H : Host}.

(** A set iterates over the elements that were put into it. *)
Hypothesis set_order_members : forall l x, In x (set_order H l) <-> In x l.

Lemma set_order_nil : set_order H [] = [].
Proof.
  destruct (set_order H []) as [|x r] eqn:E; [reflexivity |].
  assert (Hx : In x (set_order H [])) by (rewrite E; now left).
  exact (match proj1 (set_order_members [] x) Hx with end).
Qed.

(** X2: when [get_particle_system] returns [p], the host listed [p] among
    the nParticle connections of the asset and among its nParticle
    descendants, and every other node listed in both is [p] itself; the
    state is as before. *)
Theorem get_particle_system_returns_the_one :
  forall (asset : string) (st st' : State H) (p : string),
    get_particle_system asset st = (Ok p, st') ->
    st' = st
    /\ exists connections descendents,
         query H (st_scene st)
           (QListConnections asset (by_type_dest true false "nParticle"))
         = Some connections
         /\ query H (st_scene st) (QListRelatives asset (Some "nParticle"))
            = Some descendents
         /\ In p connections /\ In p descendents
         /\ forall q, In q connections -> In q descendents -> q = p.
Proof.
  intros asset st st' p Hrun.
  assert (Hst : st' = st).
  { rewrite <- (get_particle_system_read_only asset st). now rewrite Hrun. }
  split; [exact Hst |].
  destruct (query H (st_scene st)
              (QListConnections asset (by_type_dest true false "nParticle")))
    as [connections|] eqn:Hc.
  - destruct (query H (st_scene st) (QListRelatives asset (Some "nParticle")))
      as [descendents|] eqn:Hd.
    + rewrite (get_particle_system_lists asset st connections descendents Hc Hd) in Hrun.
      cbv zeta in Hrun.
      destruct (set_order H (filter (fun i => str_in i descendents) connections))
        as [|p' [|q r]] eqn:Hset; try discriminate.
      injection Hrun as <- _.
      assert (Hall : forall q, In q connections -> In q descendents -> q = p').
      { intros q Hq1 Hq2.
        assert (Hq : In q (set_order H (filter (fun i => str_in i descendents)
                                          connections))).
        { apply set_order_members, filter_In. split; [exact Hq1 |].
          now apply str_in_spec. }
        rewrite Hset in Hq. destruct Hq as [<- | []]. reflexivity. }
      assert (Hp : In p' (filter (fun i => str_in i descendents) connections)).
      { apply set_order_members. rewrite Hset. now left. }
      apply filter_In in Hp. destruct Hp as [Hp1 Hp2]. apply str_in_spec in Hp2.
      exists connections, descendents. repeat split; auto.
    + exfalso. unfold get_particle_system in Hrun.
      rewrite bind_ask, bind_ask, Hc, Hd in Hrun.
      destruct connections as [|c r]; [| discriminate].
      cbn [filter_against] in Hrun. rewrite set_order_nil in Hrun. discriminate.
  - exfalso. rewrite (get_particle_system_none asset st Hc) in Hrun. discriminate.
Qed.

(** X3: when [map_houdini_asset] returns, the mapping has one entry, for
    the asset itself; its [particle_system] has one key, the node that
    [get_particle_system] returns for the asset, with the host's list of
    dynamic attributes as value; its [hierarchy] is present; and the state is
    as before. *)
Theorem map_houdini_asset_returns_one_entry :
  forall (asset : string) (st st' : State H) (mapping : list (string * AssetData)),
    map_houdini_asset asset st = (Ok mapping, st') ->
    st' = st
    /\ exists particle objects,
         get_particle_system asset st = (Ok particle, st)
         /\ mapping
            = [(asset,
                {| particle_system :=
                     Some [(particle, query H (st_scene st) (QDynamicAttrList particle))];
                   hierarchy := Some objects |})].
Proof.
  intros asset st st' mapping Hrun.
  assert (Hst : st' = st).
  { rewrite <- (map_houdini_asset_read_only asset st). now rewrite Hrun. }
  split; [exact Hst |].
  unfold map_houdini_asset, get_instancers, get_particle_attributes in Hrun.
  rewrite (bind_ask (QListConnections asset (by_type_dest false false "instancer")))
    in Hrun.
  destruct (query H (st_scene st)
              (QListConnections asset (by_type_dest false false "instancer")))
    as [l|]; [| discriminate].
  unfold bind at 1 in Hrun.
  pose proof (collect_hierarchy_read_only l [] st) as Hro1.
  destruct (collect_hierarchy l [] st) as [[inserted|e] s1]; [| discriminate].
  simpl in Hro1. subst s1.
  unfold bind at 1 in Hrun.
  pose proof (get_particle_system_read_only asset st) as Hro2.
  destruct (get_particle_system asset st) as [[particle|e] s2]; [| discriminate].
  simpl in Hro2. subst s2.
  rewrite (bind_ask (QDynamicAttrList particle)) in Hrun. injection Hrun as <- _.
  exists particle, (set_order H inserted). split; reflexivity.
Qed.
End ParticleSystemReturns.

(** *** maintain_connections: what it issues, and when it does nothing *)

Section MaintainEdits.
Context {H : Host}.

Lemma gather_instancers_returns (instancers : list string) :
  forall (acc : list Connection) (st : State H),
    exists cs err, gather_instancers instancers acc st = (Ok (cs, err), st).
Proof.
  induction instancers as [|inst rest IH]; intros acc st; cbn [gather_instancers].
  - now exists acc, None.
  - rewrite bind_ask.
    destruct (query H (st_scene st)
                (QListConnections (inst ++ ".inputHierarchy") with_plug_pairs)) as [h|].
    + destruct (connection_pairs h) as [ps|e]; [apply IH | now exists acc, (Some e)].
    + now exists acc, (Some none_no_len).
Qed.

Lemma gather_nparticles_returns (nparticles : list string) :
  forall (acc : list Connection) (st : State H),
    exists cs err, gather_nparticles nparticles acc st = (Ok (cs, err), st).
Proof.
  induction nparticles as [|np rest IH]; intros acc st; cbn [gather_nparticles].
  - now exists acc, None.
  - rewrite bind_ask.
    destruct (query H (st_scene st)
                (QListConnections np (by_type_dest false false "instancer")))
      as [[|inst more]|]; try apply IH.
    destruct (gather_instancers_returns (inst :: more) acc st) as (cs & err & Hrun).
    rewrite (bind_ok _ _ _ _ _ Hrun).
    destruct err as [e|]; [now exists cs, (Some e) | apply IH].
Qed.

Lemma gather_connections_returns (asset : string) (st : State H) :
  gather_connections asset st
  = (Ok (gathered asset st, gather_error asset st), st).
Proof.
  assert (Hrun : exists cs err, gather_connections asset st = (Ok (cs, err), st)).
  { unfold gather_connections. rewrite bind_ask, bind_ask.
    destruct (query H (st_scene st)
                (QListConnections asset (by_type_dest true true "nParticle"))) as [ps|].
    - destruct (filter_against false ps
                  (query H (st_scene st) (QListRelatives asset None)))
        as [non_descendents|e].
      + apply gather_nparticles_returns.
      + now exists [], (Some e).
    - now exists [], (Some none_not_iterable). }
  destruct Hrun as (cs & err & Hrun).
  unfold gathered, gather_error. rewrite Hrun. reflexivity.
Qed.

Definition breaking (cs : list Connection) : list Edit :=
  map (fun c => EDisconnectAttr (fst c) (snd c)) cs.

Definition restoring (cs : list Connection) : list Edit :=
  map (fun c => EConnectAttr (fst c) (snd c) true) cs.

Lemma disconnect_loop_log (cs : list Connection) :
  forall (start : nat) (st s1 : State H),
    for_enumerate start cs disconnect_one st = (Ok tt, s1) ->
    st_log s1 = (st_log st ++ breaking cs)%list.
Proof.
  induction cs as [|c rest IH]; intros start st s1; cbn [for_enumerate].
  - intros [= <-]. simpl. now rewrite app_nil_r.
  - rewrite disconnect_one_run.
    destruct (exec H (st_scene st) (EDisconnectAttr (fst c) (snd c))) as [[u|e] sc];
      [| discriminate].
    intros Hrest. apply IH in Hrest. rewrite Hrest. unfold logged. simpl.
    now rewrite <- app_assoc.
Qed.

Lemma reconnect_loop_log (cs : list Connection) :
  forall (start : nat) (st s1 : State H),
    for_enumerate start cs reconnect_one st = (Ok tt, s1) ->
    st_log s1 = (st_log st ++ restoring cs)%list.
Proof.
  induction cs as [|c rest IH]; intros start st s1; cbn [for_enumerate].
  - intros [= <-]. simpl. now rewrite app_nil_r.
  - rewrite reconnect_one_run.
    destruct (exec H (st_scene st) (EConnectAttr (fst c) (snd c) true)) as [[u|e] sc];
      [| discriminate].
    intros Hrest. apply IH in Hrest. rewrite Hrest. unfold logged. simpl.
    now rewrite <- app_assoc.
Qed.

(** [maintain_connections] with the recording done. *)
Lemma maintain_connections_run (asset : string) (body : M H unit) (st : State H) :
  maintain_connections asset body st
  = try_finally
      (match gather_error asset st with
       | Some e => raise e
       | None => for_enumerate 0 (gathered asset st) disconnect_one ;;; body
       end)
      (for_enumerate 0 (gathered asset st) reconnect_one) st.
Proof.
  unfold maintain_connections.
  rewrite (bind_ok _ _ _ _ _ (gather_connections_returns asset st)).
  reflexivity.
Qed.

(** X4: when the context completes without an exception, it issued, in
    this order: a [disconnectAttr] for every recorded connection, the edits
    of the body, and a forced [connectAttr] for every recorded connection,
    in the order of the recording both times. *)
Theorem maintain_connections_breaks_then_restores :
  forall (asset : string) (body : M H unit) (st st' : State H),
    maintain_connections asset body st = (Ok tt, st') ->
    exists s1 s2,
      disconnect_all (gathered asset st) st = (Ok tt, s1)
      /\ st_log s1 = (st_log st ++ breaking (gathered asset st))%list
      /\ body s1 = (Ok tt, s2)
      /\ reconnect_all (gathered asset st) s2 = (Ok tt, st')
      /\ st_log st' = (st_log s2 ++ restoring (gathered asset st))%list.
Proof.
  intros asset body st st'. rewrite maintain_connections_run.
  unfold try_finally.
  destruct (gather_error asset st) as [e|].
  - cbn [raise]. destruct (for_enumerate 0 (gathered asset st) reconnect_one st)
      as [[u|e'] s]; discriminate.
  - unfold bind.
    destruct (for_enumerate 0 (gathered asset st) disconnect_one st)
      as [[[]|e] s1] eqn:Hbreak.
    + destruct (body s1) as [[[]|e] s2] eqn:Hbody.
      * destruct (for_enumerate 0 (gathered asset st) reconnect_one s2)
          as [[[]|e] s3] eqn:Hrestore; [| discriminate].
        intros [= <-]. exists s1, s2.
        split; [exact Hbreak |]. split; [exact (disconnect_loop_log _ _ _ _ Hbreak) |].
        split; [exact Hbody |]. split; [exact Hrestore |].
        exact (reconnect_loop_log _ _ _ _ Hrestore).
      * destruct (for_enumerate 0 (gathered asset st) reconnect_one s2)
          as [[u|e'] s3]; discriminate.
    + destruct (for_enumerate 0 (gathered asset st) reconnect_one s1)
        as [[u|e'] s3]; discriminate.
Qed.

(** X5: an asset without a connected nParticle makes the host answer
    [None], and the context raises a [TypeError] on entry: the body is never
    run, nothing is edited.  [update_asset] therefore raises the same error
    for such an asset once it has found an instancer, and never issues the
    sync command. *)
Theorem maintain_connections_needs_an_nparticle :
  forall (asset : string) (st : State H),
    query H (st_scene st) (QListConnections asset (by_type_dest true true "nParticle"))
    = None ->
    (forall body, maintain_connections asset body st = (Raise none_not_iterable, st))
    /\ (forall shapes first others instancer more,
          query H (st_scene st) (QNodeType asset) = "houdiniAsset" ->
          query H (st_scene st) (QListConnections asset (by_type_dest false false "mesh"))
          = Some shapes ->
          set_order H shapes = first :: others ->
          filter_against false
            (match query H (st_scene st)
                     (QListConnections first (by_type_dest false false "instancer")) with
             | Some l => l
             | None => []
             end)
            (query H (st_scene st) (QListRelatives asset None))
          = Ok (instancer :: more) ->
          update_asset asset st = (Raise none_not_iterable, st)).
Proof.
  intros asset st Hnone.
  assert (Hctx : forall body,
             maintain_connections asset body st = (Raise none_not_iterable, st)).
  { intros body. rewrite maintain_connections_run.
    unfold gathered, gather_error, gather_connections.
    rewrite bind_ask, bind_ask, Hnone. reflexivity. }
  split; [exact Hctx |].
  intros shapes first others instancer more Hty Hshapes Hfirst Hinst.
  unfold update_asset.
  rewrite (bind_ok _ _ _ _ _ (get_shape_transforms_run asset st shapes Hty Hshapes)).
  rewrite bind_ask, Hfirst, bind_ask, Hinst.
  cbn [length Nat.eqb negb assert]. rewrite bind_ret.
  now rewrite (bind_raise _ _ _ _ _ (Hctx _)).
Qed.

(** X6: when every connected nParticle lies below the asset, nothing is
    recorded and the context is transparent: its outcome and final state
    are those of the body alone. *)
Theorem maintain_connections_without_replica :
  forall (asset : string) (body : M H unit) (st : State H) (ps ds : list string),
    query H (st_scene st) (QListConnections asset (by_type_dest true true "nParticle"))
    = Some ps ->
    query H (st_scene st) (QListRelatives asset None) = Some ds ->
    (forall p, In p ps -> In p ds) ->
    maintain_connections asset body st = body st.
Proof.
  intros asset body st ps ds Hps Hds Hall.
  rewrite maintain_connections_run.
  unfold gathered, gather_error, gather_connections.
  rewrite bind_ask, bind_ask, Hps, Hds.
  assert (Hf : filter_against false ps (Some ds) = Ok []).
  { assert (Hnil : forall l, (forall p, In p l -> In p ds) ->
                              filter (fun p => negb (str_in p ds)) l = []).
    { induction l as [|x l IH]; intros Hl; [reflexivity |]. simpl.
      assert (Hx : str_in x ds = true) by (apply str_in_spec, Hl; now left).
      rewrite Hx. simpl. apply IH. intros q Hq. apply Hl. now right. }
    destruct ps as [|p r]; [reflexivity |]. unfold filter_against.
    now rewrite (Hnil (p :: r) Hall). }
  rewrite Hf. cbn [gather_nparticles ret fst snd].
  unfold try_finally. cbn [for_enumerate]. rewrite bind_ret.
  destruct (body st) as [[u|e] s1]; reflexivity.
Qed.
End MaintainEdits.

(** *** update_asset: where the new shapes go *)

(** [connectAttr] of each shape's [matrix] into the instancer's
    [inputHierarchy], at the index [count + i] for the [i]-th shape, [i]
    counting from [start]. *)
Fixpoint new_shape_edits (instancer : string) (count start : nat) (shapes : list string)
  : list Edit :=
  match shapes with
  | [] => []
  | shape :: rest =>
      EConnectAttr (shape ++ ".matrix") (input_hierarchy_at instancer (count + start)) false
        :: new_shape_edits instancer count (S start) rest
  end.

Section UpdateAsset.
Context {H : Host}.

Definition connect_shape (instancer : string) (count : nat) (i : nat) (shape : string)
  : M H unit :=
  edit (EConnectAttr (shape ++ ".matrix") (input_hierarchy_at instancer (count + i)) false).

Lemma connect_shapes_log (instancer : string) (count : nat) (shapes : list string) :
  forall (start : nat) (st st' : State H),
    for_enumerate start shapes (connect_shape instancer count) st = (Ok tt, st') ->
    st_log st' = (st_log st ++ new_shape_edits instancer count start shapes)%list.
Proof.
  induction shapes as [|shape rest IH]; intros start st st';
    cbn [for_enumerate new_shape_edits].
  - intros [= <-]. now rewrite app_nil_r.
  - unfold connect_shape at 1.
    rewrite (bind_edit_run
               (EConnectAttr (shape ++ ".matrix")
                  (input_hierarchy_at instancer (count + start)) false)).
    destruct (exec H (st_scene st)
                (EConnectAttr (shape ++ ".matrix")
                   (input_hierarchy_at instancer (count + start)) false))
      as [[u|e] sc]; [| discriminate].
    intros Hrest. apply IH in Hrest. rewrite Hrest. unfold logged. simpl.
    now rewrite <- app_assoc.
Qed.

(** X7: when [update_asset] returns, it returns [True]; it had the shapes
    [before] of the asset, took the first instancer fed by the first of them
    that is not below the asset, ran the sync command inside
    [maintain_connections], and then connected every shape that was not
    there before, in the iteration order of their set, to
    [inputHierarchy[len(before) + i]] of that instancer with [i] counting
    from one: the index [len(before)] itself is never used.  These
    connections are its last edits. *)
Theorem update_asset_appends_new_shapes :
  forall (asset : string) (st st' : State H) (b : bool),
    update_asset asset st = (Ok b, st') ->
    b = true
    /\ exists before first others instancer more s1 after,
         get_shape_transforms asset st = (Ok before, st)
         /\ before = first :: others
         /\ filter_against false
              (match query H (st_scene st)
                       (QListConnections first (by_type_dest false false "instancer")) with
               | Some l => l
               | None => []
               end)
              (query H (st_scene st) (QListRelatives asset None))
            = Ok (instancer :: more)
         /\ maintain_connections asset (edit (EMelEval (sync_command asset))) st
            = (Ok tt, s1)
         /\ get_shape_transforms asset s1 = (Ok after, s1)
         /\ st_log st'
            = (st_log s1
                 ++ new_shape_edits instancer (length before) 1
                      (set_order H (filter (fun s => negb (str_in s before)) after)))%list.
Proof.
  intros asset st st' b Hrun. unfold update_asset in Hrun.
  unfold bind at 1 in Hrun.
  pose proof (get_shape_transforms_read_only asset st) as Hro.
  destruct (get_shape_transforms asset st) as [[before|e] s0] eqn:Hbefore;
    [| discriminate].
  simpl in Hro. subst s0.
  rewrite (bind_ask (QListRelatives asset None)) in Hrun.
  destruct before as [|first others]; [discriminate |].
  rewrite (bind_ask (QListConnections first (by_type_dest false false "instancer")))
    in Hrun.
  destruct (filter_against false
              (match query H (st_scene st)
                       (QListConnections first (by_type_dest false false "instancer")) with
               | Some l => l
               | None => []
               end)
              (query H (st_scene st) (QListRelatives asset None)))
    as [[|instancer more]|e] eqn:Hinst; try discriminate.
  cbn [length Nat.eqb negb assert] in Hrun. rewrite bind_ret in Hrun.
  unfold bind at 1 in Hrun.
  destruct (maintain_connections asset (edit (EMelEval (sync_command asset))) st)
    as [[[]|e] s1] eqn:Hctx; [| discriminate].
  unfold bind at 1 in Hrun.
  pose proof (get_shape_transforms_read_only asset s1) as Hro.
  destruct (get_shape_transforms asset s1) as [[after|e] s2] eqn:Hafter;
    [| discriminate].
  simpl in Hro. subst s2.
  unfold bind in Hrun.
  match type of Hrun with
  | context [for_enumerate ?s ?l ?body ?st0] =>
      destruct (for_enumerate s l body st0) as [[[]|e] s3] eqn:Hloop; [| discriminate]
  end.
  injection Hrun as <- <-. split; [reflexivity |].
  exists (first :: others), first, others, instancer, more, s1, after.
  repeat split; auto.
  exact (connect_shapes_log instancer (length (first :: others)) _ 1 s1 s3 Hloop).
Qed.
End UpdateAsset.

(** *** replicate: what happens before and at the end of a pass *)

Section ReplicateEdges.
Context {H : Host}.

(** The group edit of a call of [replicate] for [name], from state [s1]. *)
Definition group_edit (name : string) (s1 : State H) : Edit :=
  EGroup (query H (st_scene s1) (QUniqueName (name ++ "_") "%03d" "_GRP") ++ "_GRP").

(** X8: [replicate] settles the nucleus and creates the group before it
    looks at the mapping.  When both succeed, an empty mapping makes it
    return [True] with the (empty) group left in the scene, and a first
    entry without [particle_system] makes it raise the [RuntimeError] with
    the group, and the nucleus if one was created, left in the scene: nothing
    is undone. *)
Theorem replicate_prepares_before_it_reads_the_mapping :
  forall (name : string) (attribute_mapping : option (list (string * string)))
         (st s1 : State H) (nucleus asset_group : string) (sc2 : scene H),
    pick_nucleus st = (Ok nucleus, s1) ->
    exec H (st_scene s1) (group_edit name s1) = (Ok asset_group, sc2) ->
    replicate name [] attribute_mapping st
    = (Ok true, logged s1 sc2 (group_edit name s1))
    /\ forall asset mapping rest,
         particle_system mapping = None ->
         replicate name ((asset, mapping) :: rest) attribute_mapping st
         = (Raise (RuntimeError ("Incomplete mapping of asset '" ++ asset
                                   ++ "', missing particle_system")),
            logged s1 sc2 (group_edit name s1)).
Proof.
  intros name attribute_mapping st s1 nucleus asset_group sc2 Hpick Hgroup.
  unfold group_edit in *. split.
  - unfold replicate. rewrite (bind_ok _ _ _ _ _ Hpick).
    rewrite (bind_ask (QUniqueName (name ++ "_") "%03d" "_GRP")).
    rewrite bind_edit_run, Hgroup. reflexivity.
  - intros asset mapping rest Hnone.
    unfold replicate. rewrite (bind_ok _ _ _ _ _ Hpick).
    rewrite (bind_ask (QUniqueName (name ++ "_") "%03d" "_GRP")).
    rewrite bind_edit_run, Hgroup. cbn [for_enumerate].
    unfold replicate_asset at 1. rewrite Hnone. reflexivity.
Qed.

(** The scene after the host has accepted the edits of [l] one after the
    other from [sc]; [None] when it refuses one of them. *)
Fixpoint accepted (sc : scene H) (l : list Edit) : option (scene H) :=
  match l with
  | [] => Some sc
  | e :: rest =>
      match exec H sc e with
      | (Ok _, sc') => accepted sc' rest
      | (Raise _, _) => None
      end
  end.

Ltac log_tail Hlog :=
  cbn [st_log] in Hlog;
  repeat rewrite <- app_assoc in Hlog;
  first [ apply app_inv_head in Hlog
        | rewrite <- (app_nil_r (st_log _)) in Hlog at 1; apply app_inv_head in Hlog ];
  cbn [app] in Hlog.

Ltac split_log Hlog :=
  match type of Hlog with
  | [] = (?b ++ _)%list => destruct b; discriminate Hlog
  | _ = (?b ++ [?l])%list =>
      let Hb := fresh "Hb" in
      let Hl := fresh "Hl" in
      pose proof (f_equal (@removelast Edit) Hlog) as Hb;
      rewrite removelast_last in Hb;
      pose proof (f_equal (fun l0 => List.last l0 l) Hlog) as Hl;
      cbv beta in Hl; rewrite last_last in Hl;
      cbn [removelast List.last] in Hb, Hl;
      clear Hlog; subst b; subst l
  end.

Ltac replay :=
  repeat (cbn [accepted];
          match goal with
          | E : exec H _ _ = _ |- _ => rewrite E
          end);
  cbn [accepted].

Ltac by_last_answer :=
  eexists; split; [reflexivity |];
  split; intros Hlen; cbn [length] in Hlen;
  [ first [ lia
          | match goal with
            | E : exec H _ _ = _ |- _ => rewrite E
            end; reflexivity ]
  | first [ lia
          | intros x Hx;
            match goal with
            | E : exec H _ _ = _ |- _ => rewrite E in Hx
            end;
            cbn [fst] in Hx;
            first [discriminate Hx | injection Hx as <-; reflexivity] ] ].

Ltac settle Hrun Hlog :=
  injection Hrun as <- <-; log_tail Hlog; split_log Hlog; replay; by_last_answer.

Ltac run_edit Hrun Hlog :=
  rewrite bind_edit_run in Hrun; unfold logged in Hrun;
  cbn [st_scene st_log] in Hrun;
  let E := fresh "E" in
  match type of Hrun with
  | context [exec H ?sc ?e] =>
      destruct (exec H sc e) as [[? | ?] ?] eqn:E; [| settle Hrun Hlog]
  end.

(** X9: a pass of [replicate_asset] goes on only after edits the host
    accepted, and the answer of the host to the edit it issued last decides
    how it ends.  When that edit is one of the first ten, an exception of
    the host comes out of the pass as it is, a [RuntimeError] too; when it
    is the eleventh, parenting the new instancer under the group, the pass
    returns also when the host raises a [RuntimeError], and any other
    exception comes out. *)
Theorem replicate_asset_passes_over_only_the_last_runtime_error :
  forall (name nucleus asset_group : string) (attribute_mapping : list (string * string))
         (i : nat) (entry : string * AssetData) (st : State H)
         (before : list Edit) (last : Edit),
    let r := replicate_asset name nucleus asset_group attribute_mapping i entry st in
    st_log (snd r) = (st_log st ++ before ++ [last])%list ->
    exists sc,
      accepted (st_scene st) before = Some sc
      /\ (length before = 10 ->
          fst r = match fst (exec H sc last) with
                  | Ok _ => Ok tt
                  | Raise (RuntimeError _) => Ok tt
                  | Raise x => Raise x
                  end)
      /\ (length before < 10 ->
          forall x, fst (exec H sc last) = Raise x -> fst r = Raise x).
Proof.
  intros name nucleus asset_group attribute_mapping i [asset mapping] st before last r Hlog.
  subst r.
  destruct (replicate_asset name nucleus asset_group attribute_mapping i (asset, mapping) st)
    as [o st'] eqn:Hrun.
  cbn [fst snd] in *. unfold replicate_asset in Hrun.
  destruct (particle_system mapping) as [[|[particle attributes] more]|];
    try (injection Hrun as <- <-; log_tail Hlog; split_log Hlog).
  rewrite (bind_ask (QListConnections (cache_array_data particle) plugs_only)) in Hrun.
  destruct (query H (st_scene st) (QListConnections (cache_array_data particle) plugs_only))
    as [[|data_attr [|second others]]|];
    cbn [assert length Nat.eqb] in Hrun;
    try (injection Hrun as <- <-; log_tail Hlog; split_log Hlog).
  rewrite bind_ret in Hrun.
  run_edit Hrun Hlog.
  match type of Hrun with
  | context [assert (Nat.eqb (length ?l) 1)] => destruct l as [|new_system [|another rest]]
  end; cbn [assert length Nat.eqb] in Hrun; try settle Hrun Hlog.
  rewrite bind_ret in Hrun.
  do 5 run_edit Hrun Hlog.
  destruct (keyword_clash attribute_mapping); [settle Hrun Hlog |].
  do 4 run_edit Hrun Hlog.
  unfold pass_runtime_error, edit in Hrun. cbn [st_scene st_log] in Hrun.
  match type of Hrun with
  | context [exec H ?sc ?e] => destruct (exec H sc e) as [[? | []] ?] eqn:Elast
  end; settle Hrun Hlog.
Qed.
End ReplicateEdges.

(** *** process: the names it asks for *)

(** The names a pass of [replicate] with index [i] asks the host for. *)
Definition names_at (name : string) (i : nat) (e : Edit) : Prop :=
  match e with
  | EDuplicate _ n => n = part_name name i
  | EParticleInstancer _ n _ _ => n = inst_name name i
  | _ => True
  end.

Section ProcessNames.
Context {H : Host}.

Lemma read_only_emits {A} (P : Edit -> Prop) (m : M H A) : read_only m -> emits P m.
Proof.
  intros Hm st. exists []. rewrite (Hm st), app_nil_r. now split.
Qed.

Lemma emits_bind_post {A B} (P : Edit -> Prop) (Q : A -> Prop)
    (m : M H A) (k : A -> M H B) :
  (forall st a st', m st = (Ok a, st') -> Q a) ->
  emits P m -> (forall a, Q a -> emits P (k a)) -> emits P (bind m k).
Proof.
  intros Hq Hm Hk st. unfold bind.
  destruct (Hm st) as [l1 [E1 F1]].
  destruct (m st) as [[a|e] st1] eqn:Hrun; simpl in E1.
  - destruct (Hk a (Hq _ _ _ Hrun) st1) as [l2 [E2 F2]].
    exists (l1 ++ l2)%list. rewrite E2, E1, app_assoc.
    split; [reflexivity | now apply Forall_app].
  - exists l1. simpl. now split.
Qed.

Lemma replicate_asset_names (name nucleus group : string)
    (attrs : list (string * string)) (i : nat) (entry : string * AssetData) :
  emits (H := H) (names_at name i) (replicate_asset name nucleus group attrs i entry).
Proof.
  destruct entry as [asset mapping]. unfold replicate_asset.
  destruct (particle_system mapping) as [[|[particle attributes] more]|];
    try apply emits_raise.
  apply emits_bind; [apply emits_ask | intros found].
  apply emits_bind; [apply emits_assert | intros _].
  destruct (match found with Some l => l | None => [] end) as [|data_attr rest];
    [apply emits_raise |].
  apply emits_bind; [apply emits_edit; reflexivity | intros new_systems].
  apply emits_bind; [apply emits_assert | intros _].
  destruct new_systems as [|new_system others]; [apply emits_raise |].
  repeat (apply emits_bind; [apply emits_edit; simpl; auto | intros ?]).
  destruct (keyword_clash attrs); [apply emits_raise |].
  repeat (apply emits_bind; [apply emits_edit; simpl; auto | intros ?]).
  apply emits_pass_runtime_error, emits_edit. exact I.
Qed.

Lemma replicate_single_names (name : string) (entry : string * AssetData)
    (attribute_mapping : option (list (string * string))) :
  emits (H := H) (names_at (name ++ "_") 0) (replicate name [entry] attribute_mapping).
Proof.
  unfold replicate, pick_nucleus.
  apply emits_bind.
  - apply emits_bind; [apply emits_ask | intros [|first others]];
      [exact (emits_edit _ (ECreateNode "nucleus") I) | apply emits_ret].
  - intros nucleus.
    apply emits_bind; [apply emits_ask | intros unique].
    apply emits_bind; [apply emits_edit; exact I | intros asset_group].
    apply emits_bind; [| intros _; apply emits_ret].
    cbn [for_enumerate].
    apply emits_bind; [apply replicate_asset_names | intros _; apply emits_ret].
Qed.

Lemma map_houdini_asset_single (asset : string) (st st' : State H)
    (mapping : list (string * AssetData)) :
  map_houdini_asset asset st = (Ok mapping, st') -> exists entry, mapping = [entry].
Proof.
  unfold map_houdini_asset, get_instancers, get_particle_attributes. intros Hrun.
  rewrite (bind_ask (QListConnections asset (by_type_dest false false "instancer")))
    in Hrun.
  destruct (query H (st_scene st)
              (QListConnections asset (by_type_dest false false "instancer")))
    as [l|]; [| discriminate].
  unfold bind at 1 in Hrun.
  destruct (collect_hierarchy l [] st) as [[inserted|e] s1]; [| discriminate].
  unfold bind at 1 in Hrun.
  destruct (get_particle_system asset s1) as [[particle|e] s2]; [| discriminate].
  rewrite (bind_ask (QDynamicAttrList particle)) in Hrun. injection Hrun as <- _.
  eexists. reflexivity.
Qed.

(** X10: [process] replicates every selected asset in a call of its own,
    so the index in the names is always zero: whatever the selection, every
    duplicate is requested under [<name>_000_PART] and every instancer under
    [<name>_000_INST]. *)
Theorem process_asks_for_the_same_names :
  forall (app : App) (st : State H),
    exists issued,
      st_log (snd (process app st)) = (st_log st ++ issued)%list
      /\ (forall node n, In (EDuplicate node n) issued ->
            n = (name_field app ++ "_") ++ "000_PART")
      /\ (forall system n objects kwargs,
            In (EParticleInstancer system n objects kwargs) issued ->
            n = (name_field app ++ "_") ++ "000_INST").
Proof.
  intros app st.
  assert (Hem : emits (H := H) (names_at (name_field app ++ "_") 0) (process app)).
  { unfold process. destruct (String.eqb (name_field app) EmptyString);
      [apply emits_raise |].
    unfold for_each. apply emits_for_enumerate. intros i asset.
    apply (emits_bind_post _ (fun mapping => exists entry, mapping = [entry])).
    - intros s m s' Hrun. exact (map_houdini_asset_single _ _ _ _ Hrun).
    - apply read_only_emits, map_houdini_asset_read_only.
    - intros mapping [entry ->].
      apply emits_bind; [apply replicate_single_names | intros _; apply emits_ret]. }
  destruct (Hem st) as [issued [Hlog Hall]]. exists issued.
  rewrite Forall_forall in Hall. split; [exact Hlog |]. split.
  - intros node n Hin. exact (Hall _ Hin).
  - intros system n objects kwargs Hin. exact (Hall _ Hin).
Qed.
End ProcessNames.

(** ** Further properties of app.py *)

Lemma attribute_mapping_of_placeholders (data : list (string * SearchComboBox)) :
  (forall s p, In (s, p) data -> currentText p = EmptyString) ->
  attribute_mapping data = [].
Proof.
  induction data as [|[s p] rest IH]; intros Hall; [reflexivity |].
  cbn [attribute_mapping].
  assert (Hp : currentText p = EmptyString) by (apply (Hall s); now left).
  assert (Hk : not_ignored (get_valid_value p) = false).
  { unfold get_valid_value. rewrite Hp.
    destruct (str_in EmptyString (items p)); reflexivity. }
  rewrite Hk. apply IH. intros s' p' Hin. apply (Hall s'). now right.
Qed.

Section DialogAfterRefresh.
Context {H : Host}.

Definition cleared (app : App) : App :=
  with_mapping_data
    (with_mapping_layout app (map schedule_delete (mapping_layout app))) [].

(** X11: right after [refresh] every picker shows the placeholder, which
    is a valid value ([get_valid_value] gives the empty string, not [None])
    but an ignored one: the attribute mapping [process] would forward is
    empty until the artist picks something. *)
Theorem refreshed_dialog_forwards_nothing :
  forall (app : App) (st : State H),
    let app' := dialog_after (refresh app st) in
    (forall s p, In (s, p) (mapping_data app') -> get_valid_value p = Some EmptyString)
    /\ attribute_mapping (mapping_data app') = [].
Proof.
  intros app st app'. subst app'.
  assert (Hfresh : forall s p,
             In (s, p) (mapping_data (dialog_after (refresh app st))) ->
             exists targets, p = populate targets).
  { intros s p Hin. exact (get_settings_data (cleared app) st s p eq_refl Hin). }
  split.
  - intros s p Hin. destruct (Hfresh s p Hin) as [targets ->]. reflexivity.
  - apply attribute_mapping_of_placeholders. intros s p Hin.
    destruct (Hfresh s p Hin) as [targets ->]. reflexivity.
Qed.

(** X12: when the host lists at least one asset and every asset yields its
    particle attributes, [refresh] leaves one picker per instancer attribute,
    the general ones before the rotation ones, and every picker offers the
    placeholder, then [DEFAULT_TARGETS], then the particle attributes cut at
    their first colon, in the iteration order of their set; the live widgets
    are the two section boxes. *)
Theorem refresh_builds_the_pickers :
  forall (app : App) (st st2 : State H) (asset : string) (assets inserted : list string),
    host_houdini_assets (st_scene st) (from_selection app) = asset :: assets ->
    collect_targets (asset :: assets) [] st = (Ok inserted, st2) ->
    let app' := dialog_after (refresh app st) in
    let targets := (DEFAULT_TARGETS ++ set_order H inserted)%list in
    mapping_data app'
    = map (fun source => (source, {| items := EmptyString :: targets;
                                     currentText := EmptyString |}))
        (INSTANCER_PP_ATTRIBUTES "general" ++ INSTANCER_PP_ATTRIBUTES "rotation")%list
    /\ map objectName (live_widgets app') = ["general"; "rotation"]
    /\ map box_title (live_widgets app') = ["General"; "Rotation"].
Proof.
  intros app st st2 asset assets inserted Hassets Hcollect app' targets.
  subst app' targets. unfold refresh, get_settings, dialog_after.
  rewrite get_houdini_assets_run.
  cbn [from_selection with_mapping_data with_mapping_layout].
  rewrite Hassets, Hcollect. cbn [fst snd fold_left].
  rewrite !add_section_spec.
  cbn [mapping_data mapping_layout with_selection with_mapping_data with_mapping_layout
       from_selection name_field selection].
  split; [reflexivity |].
  unfold live_widgets. cbn [mapping_layout].
  rewrite <- app_assoc. rewrite live_after_schedule; [split; reflexivity |].
  repeat constructor.
Qed.

(** X13: [get_settings] stores the host's list of assets in [_selection]
    before it builds anything, so the dialog has the new selection after
    [refresh] whatever the outcome; when [refresh] raises, the dialog is left
    with that selection, an empty [mapping_data] and no live widget. *)
Theorem refresh_stores_the_selection_first :
  forall (app : App) (st : State H),
    let r := refresh app st in
    selection (dialog_after r) = host_houdini_assets (st_scene st) (from_selection app)
    /\ forall e, fst (fst r) = Raise e ->
         mapping_data (dialog_after r) = [] /\ live_widgets (dialog_after r) = [].
Proof.
  intros app st r. subst r. unfold refresh, get_settings, dialog_after.
  rewrite get_houdini_assets_run.
  cbn [from_selection with_mapping_data with_mapping_layout].
  destruct (host_houdini_assets (st_scene st) (from_selection app)) as [|asset assets].
  - cbn [fst snd]. split; [reflexivity |]. intros e. discriminate.
  - destruct (collect_targets (asset :: assets) [] st) as [[inserted|e] st2];
      cbn [fst snd fold_left].
    + split; [| intros e; discriminate].
      rewrite !add_section_spec. reflexivity.
    + split; [reflexivity |]. intros e' _. split; [reflexivity |].
      unfold live_widgets.
      cbn [mapping_layout with_selection with_mapping_data with_mapping_layout].
      rewrite <- (app_nil_r (map schedule_delete (mapping_layout app))).
      now rewrite live_after_schedule.
Qed.
End DialogAfterRefresh.

(** ** The small helpers *)

Lemma list_pair_ind {A} (P : list A -> Prop) :
  P [] -> (forall x, P [x]) -> (forall x y r, P r -> P (x :: y :: r)) ->
  forall l, P l.
Proof.
  intros Hnil Hone Hstep l.
  assert (Hboth : P l /\ forall x, P (x :: l)).
  { induction l as [|y r [IH1 IH2]]; split; auto. }
  exact (proj1 Hboth).
Qed.

(** X14: the plug list of [listConnections(..., connections=True,
    plugs=True)] is read two by two into [source, destination] pairs: a list
    of even length always yields half as many pairs, from which the list is
    recovered by writing each pair back as destination, source; a list of odd
    length raises [IndexError] and yields nothing. *)
Theorem connection_pairs_reads_two_by_two :
  forall h : list string,
    (forall ps, connection_pairs h = Ok ps ->
       h = flat_map (fun c : Connection => [snd c; fst c]) ps
       /\ length h = 2 * length ps)
    /\ (Nat.even (length h) = true -> exists ps, connection_pairs h = Ok ps)
    /\ (Nat.even (length h) = false -> connection_pairs h = Raise index_out_of_range).
Proof.
  induction h as [|x|x y r IH] using list_pair_ind.
  - split; [| split].
    + intros ps [= <-]. now split.
    + intros _. now exists [].
    + discriminate.
  - split; [| split].
    + intros ps. discriminate.
    + discriminate.
    + reflexivity.
  - destruct IH as (IHok & IHeven & IHodd).
    cbn [connection_pairs length Nat.even]. split; [| split].
    + intros ps. destruct (connection_pairs r) as [qs|e]; [| discriminate].
      intros [= <-]. destruct (IHok qs eq_refl) as [-> Hlen]. split; [reflexivity |].
      simpl in *. lia.
    + intros Heven. destruct (IHeven Heven) as [qs ->]. now eexists.
    + intros Hodd. now rewrite (IHodd Hodd).
Qed.

Lemma before_colon_no_colon (s : string) :
  forall c, In c (list_ascii_of_string (before_colon s)) -> c <> ":"%char.
Proof.
  induction s as [|a r IH]; simpl; [intros c [] |].
  destruct (Ascii.eqb a ":") eqn:E; simpl; [intros c [] |].
  intros c [<- | Hin]; [now apply Ascii.eqb_neq | now apply IH].
Qed.

Lemma before_colon_fixed (s : string) :
  (forall c, In c (list_ascii_of_string s) -> c <> ":"%char) -> before_colon s = s.
Proof.
  induction s as [|a r IH]; simpl; [reflexivity |]. intros Hall.
  assert (Ha : Ascii.eqb a ":" = false) by (apply Ascii.eqb_neq, Hall; now left).
  rewrite Ha. f_equal. apply IH. intros c Hc. apply Hall. now right.
Qed.

(** X15: [a.split(":")[0]], as [get_settings] applies it to the particle
    attributes: the result has no colon; it is the text up to the first
    colon of the attribute, all of it when there is none; and cutting twice
    changes nothing. *)
Theorem before_colon_cuts_at_the_first_colon :
  forall s : string,
    (forall c, In c (list_ascii_of_string (before_colon s)) -> c <> ":"%char)
    /\ (exists rest,
          s = before_colon s ++ rest
          /\ (rest = EmptyString \/ exists r, rest = String ":"%char r))
    /\ ((forall c, In c (list_ascii_of_string s) -> c <> ":"%char) -> before_colon s = s)
    /\ before_colon (before_colon s) = before_colon s.
Proof.
  intros s. split; [apply before_colon_no_colon |]. split; [| split].
  - induction s as [|a r [rest [Hs Hrest]]]; simpl.
    + exists EmptyString. split; [reflexivity | now left].
    + destruct (Ascii.eqb a ":") eqn:E.
      * apply Ascii.eqb_eq in E. subst a. exists (String ":" r).
        split; [reflexivity | right; now exists r].
      * exists rest. simpl. split; [now rewrite <- Hs | exact Hrest].
  - apply before_colon_fixed.
  - apply before_colon_fixed, before_colon_no_colon.
Qed.

(** ** The further properties on the small host *)

Lemma dedup_members (l : list string) :
  forall seen x, In x (Toy.dedup seen l) <-> In x l /\ ~ In x seen.
Proof.
  induction l as [|y r IH]; intros seen x; simpl; [tauto |].
  destruct (str_in y seen) eqn:E.
  - apply str_in_spec in E. rewrite IH. split.
    + intros [Hx Hn]. split; [now right | exact Hn].
    + intros [[<- | Hx] Hn]; [contradiction | now split].
  - assert (Hy : ~ In y seen) by (intros Hy; apply str_in_spec in Hy; congruence).
    simpl. rewrite IH. simpl. split.
    + intros [<- | [Hx Hn]]; [split; [now left | exact Hy] |].
      split; [now right | intros Hs; apply Hn; now right].
    + intros [[<- | Hx] Hn]; [now left |].
      destruct (string_dec y x) as [<- | Hne]; [now left | right].
      split; [exact Hx | intros [Hs | Hs]; [contradiction | contradiction]].
Qed.

Lemma toy_set_order_members :
  forall l x, In x (set_order Toy.host l) <-> In x l.
Proof.
  intros l x. simpl. rewrite dedup_members. simpl. tauto.
Qed.

Lemma get_particle_system_returns_the_one_witness :
  exists connections descendents,
    query Toy.host Toy.rig (QListConnections "asset1" (by_type_dest true false "nParticle"))
    = Some connections
    /\ query Toy.host Toy.rig (QListRelatives "asset1" (Some "nParticle"))
       = Some descendents
    /\ In "part1" connections /\ In "part1" descendents
    /\ forall q, In q connections -> In q descendents -> q = "part1".
Proof.
  apply (get_particle_system_returns_the_one (H := Toy.host) toy_set_order_members
           "asset1" rig_state rig_state "part1").
  reflexivity.
Defined.

Lemma map_houdini_asset_returns_one_entry_witness :
  exists particle objects,
    get_particle_system "asset1" rig_state = (Ok particle, rig_state)
    /\ rig_mapping
       = [("asset1",
           {| particle_system :=
                Some [(particle, query Toy.host Toy.rig (QDynamicAttrList particle))];
              hierarchy := Some objects |})].
Proof.
  apply (map_houdini_asset_returns_one_entry (H := Toy.host)
           "asset1" rig_state rig_state rig_mapping).
  reflexivity.
Defined.

Definition sync_asset1 : M Toy.host unit := edit (EMelEval (sync_command "asset1")).

Lemma maintain_connections_breaks_then_restores_witness :
  exists s1 s2,
    disconnect_all (gathered "asset1" rig_state) rig_state = (Ok tt, s1)
    /\ st_log s1 = (st_log rig_state ++ breaking (gathered "asset1" rig_state))%list
    /\ sync_asset1 s1 = (Ok tt, s2)
    /\ reconnect_all (gathered "asset1" rig_state) s2
       = (Ok tt, snd (maintain_connections "asset1" sync_asset1 rig_state))
    /\ st_log (snd (maintain_connections "asset1" sync_asset1 rig_state))
       = (st_log s2 ++ restoring (gathered "asset1" rig_state))%list.
Proof.
  apply (maintain_connections_breaks_then_restores (H := Toy.host)
           "asset1" sync_asset1 rig_state).
  reflexivity.
Defined.

(** An asset that outputs one mesh and no particles; the mesh feeds an
    instancer outside the asset. *)
Definition meshes_only : Toy.Scene :=
  {| Toy.nodes := [ ("asset3", "houdiniAsset"); ("meshD", "mesh"); ("inst3", "instancer") ];
     Toy.parents := [ ("asset3", "meshD") ];
     Toy.conns := [ ("asset3.outputMesh", "meshD.inMesh");
                    ("meshD.matrix", "inst3.inputHierarchy[0]") ];
     Toy.dynamic_attrs := [];
     Toy.selected := [ "asset3" ] |}.

Lemma maintain_connections_needs_an_nparticle_witness :
  maintain_connections (H := Toy.host) "asset3" (edit (EMelEval (sync_command "asset3")))
    (Build_State Toy.host meshes_only [])
  = (Raise none_not_iterable, Build_State Toy.host meshes_only [])
  /\ update_asset (H := Toy.host) "asset3" (Build_State Toy.host meshes_only [])
     = (Raise none_not_iterable, Build_State Toy.host meshes_only []).
Proof.
  destruct (maintain_connections_needs_an_nparticle (H := Toy.host) "asset3"
              (Build_State Toy.host meshes_only []) eq_refl) as [Hctx Hupdate].
  split; [apply Hctx |].
  apply (Hupdate ["meshD"] "meshD" [] "inst3" []); reflexivity.
Defined.

Lemma maintain_connections_without_replica_witness :
  maintain_connections (H := Toy.host) "asset2" (edit (EMelEval (sync_command "asset2")))
    rig_state
  = edit (EMelEval (sync_command "asset2")) rig_state.
Proof.
  apply (maintain_connections_without_replica (H := Toy.host) "asset2" _ rig_state
           ["partA"; "partB"] ["partA"; "partB"; "meshC"]).
  - reflexivity.
  - reflexivity.
  - intros p [<- | [<- | []]]; simpl; auto.
Defined.

(** A host on which the sync command brings a new mesh into the asset. *)
Definition grow (sc : Toy.Scene) : Toy.Scene :=
  {| Toy.nodes := (Toy.nodes sc ++ [("meshNew", "mesh")])%list;
     Toy.parents := (Toy.parents sc ++ [("asset1", "meshNew")])%list;
     Toy.conns := (Toy.conns sc ++ [("asset1.outputMeshNew", "meshNew.inMesh")])%list;
     Toy.dynamic_attrs := Toy.dynamic_attrs sc;
     Toy.selected := Toy.selected sc |}.

Definition growing_host : Host :=
  Build_Host Toy.Scene Toy.query
    (fun sc e =>
       match e as e0 return Outcome (result e0) * Toy.Scene with
       | EMelEval _ => (Ok tt, grow sc)
       | e0 => Toy.exec sc e0
       end)
    (Toy.dedup []).

Definition growing_rig : State growing_host := Build_State growing_host Toy.rig [].

Lemma update_asset_appends_new_shapes_witness :
  (exists before first others instancer more s1 after,
      get_shape_transforms "asset1" growing_rig = (Ok before, growing_rig)
      /\ before = first :: others
      /\ filter_against false
           (match query growing_host (st_scene growing_rig)
                    (QListConnections first (by_type_dest false false "instancer")) with
            | Some l => l
            | None => []
            end)
           (query growing_host (st_scene growing_rig) (QListRelatives "asset1" None))
         = Ok (instancer :: more)
      /\ maintain_connections "asset1" (edit (EMelEval (sync_command "asset1"))) growing_rig
         = (Ok tt, s1)
      /\ get_shape_transforms "asset1" s1 = (Ok after, s1)
      /\ st_log (snd (update_asset "asset1" growing_rig))
         = (st_log s1
              ++ new_shape_edits instancer (length before) 1
                   (set_order growing_host
                      (filter (fun s => negb (str_in s before)) after)))%list)
  /\ st_log (snd (update_asset "asset1" growing_rig))
     = [ EDisconnectAttr "meshA.matrix" "inst2.inputHierarchy[0]";
         EDisconnectAttr "meshB.matrix" "inst2.inputHierarchy[1]";
         EMelEval (sync_command "asset1");
         EConnectAttr "meshA.matrix" "inst2.inputHierarchy[0]" true;
         EConnectAttr "meshB.matrix" "inst2.inputHierarchy[1]" true;
         EConnectAttr "meshNew.matrix" "inst2.inputHierarchy[3]" false ].
Proof.
  split; [| reflexivity].
  apply (update_asset_appends_new_shapes (H := growing_host) "asset1" growing_rig
           (snd (update_asset "asset1" growing_rig)) true).
  reflexivity.
Defined.

Lemma replicate_prepares_before_it_reads_the_mapping_witness :
  fst (replicate "foo" [] None rig_state) = Ok true
  /\ st_log (snd (replicate "foo" [] None rig_state))
     = [ECreateNode "nucleus"; EGroup "foo_001_GRP"]
  /\ replicate "foo" [("asset1", {| particle_system := None; hierarchy := None |})] None
       rig_state
     = (Raise (RuntimeError "Incomplete mapping of asset 'asset1', missing particle_system"),
        snd (replicate "foo" [] None rig_state)).
Proof.
  destruct (replicate_prepares_before_it_reads_the_mapping (H := Toy.host)
              "foo" None rig_state (snd (pick_nucleus rig_state)) "nucleus1" "foo_001_GRP"
              (snd (Toy.exec (st_scene (snd (pick_nucleus rig_state)))
                      (EGroup "foo_001_GRP")))
              eq_refl eq_refl) as [Hempty Hmissing].
  split; [now rewrite Hempty |]. split; [now rewrite Hempty |].
  rewrite Hempty. apply Hmissing. reflexivity.
Defined.

(** A host that refuses to parent an instancer, as Maya does for a node
    that already is where it is asked to go. *)
Definition parented_host : Host :=
  Build_Host Toy.Scene Toy.query
    (fun sc e =>
       match e as e0 return Outcome (result e0) * Toy.Scene with
       | EParent child parent =>
           if String.eqb (Toy.type_of sc child) "instancer"
           then (Raise (RuntimeError "already a child of the parent"), sc)
           else (Ok tt, sc)
       | e0 => Toy.exec sc e0
       end)
    (Toy.dedup []).

Definition parented_pass : Outcome unit * State parented_host :=
  replicate_asset "foo_" "nucleus1" "foo_001_GRP" [] 0
    ("asset1", {| particle_system := Some [("part1", None)];
                  hierarchy := Some ["meshA"; "meshB"] |})
    (Build_State parented_host Toy.rig []).

(** A host on which the attributes of an instancer are locked. *)
Definition locked_host : Host :=
  Build_Host Toy.Scene Toy.query
    (fun sc e =>
       match e as e0 return Outcome (result e0) * Toy.Scene with
       | ESetAttr _ _ => (Raise (RuntimeError "The attribute is locked"), sc)
       | e0 => Toy.exec sc e0
       end)
    (Toy.dedup []).

Definition locked_pass : Outcome unit * State locked_host :=
  replicate_asset "foo_" "nucleus1" "foo_001_GRP" [] 0
    ("asset1", {| particle_system := Some [("part1", None)];
                  hierarchy := Some ["meshA"; "meshB"] |})
    (Build_State locked_host Toy.rig []).

Lemma replicate_asset_passes_over_only_the_last_runtime_error_witness :
  (length (st_log (snd parented_pass)) = 11
   /\ fst parented_pass = Ok tt
   /\ exists sc,
        accepted (H := parented_host) Toy.rig (removelast (st_log (snd parented_pass)))
        = Some sc
        /\ fst (exec parented_host sc (EParent "foo_000_INST" "foo_001_GRP"))
           = Raise (RuntimeError "already a child of the parent"))
  /\ length (st_log (snd locked_pass)) = 9
  /\ fst locked_pass = Raise (RuntimeError "The attribute is locked").
Proof.
  split.
  - split; [reflexivity |]. split; [reflexivity |].
    destruct (replicate_asset_passes_over_only_the_last_runtime_error (H := parented_host)
                "foo_" "nucleus1" "foo_001_GRP" [] 0
                ("asset1", {| particle_system := Some [("part1", None)];
                              hierarchy := Some ["meshA"; "meshB"] |})
                (Build_State parented_host Toy.rig [])
                (removelast (st_log (snd parented_pass)))
                (EParent "foo_000_INST" "foo_001_GRP") eq_refl)
      as (sc & Hsc & _ & _).
    exists sc. split; [exact Hsc |].
    vm_compute in Hsc. injection Hsc as <-. reflexivity.
  - split; [reflexivity |].
    destruct (replicate_asset_passes_over_only_the_last_runtime_error (H := locked_host)
                "foo_" "nucleus1" "foo_001_GRP" [] 0
                ("asset1", {| particle_system := Some [("part1", None)];
                              hierarchy := Some ["meshA"; "meshB"] |})
                (Build_State locked_host Toy.rig [])
                (removelast (st_log (snd locked_pass)))
                (ESetAttr "foo_000_INST.rotationAngleUnits" 1%Z) eq_refl)
      as (sc & Hsc & _ & Hearly).
    vm_compute in Hsc. injection Hsc as <-.
    apply Hearly; [vm_compute; lia | reflexivity].
Defined.

Definition two_selected : App :=
  {| from_selection := true; name_field := "rocks"; mapping_layout := [];
     mapping_data := []; selection := ["asset1"; "asset1"] |}.

Lemma process_asks_for_the_same_names_witness :
  map (fun e => match e with EDuplicate _ n => n | _ => EmptyString end)
    (filter (fun e => match e with EDuplicate _ _ => true | _ => false end)
       (st_log (snd (process two_selected rig_state))))
  = ["rocks_000_PART"; "rocks_000_PART"]
  /\ exists issued,
       st_log (snd (process two_selected rig_state)) = (st_log rig_state ++ issued)%list
       /\ (forall node n, In (EDuplicate node n) issued ->
             n = (name_field two_selected ++ "_") ++ "000_PART")
       /\ (forall system n objects kwargs,
             In (EParticleInstancer system n objects kwargs) issued ->
             n = (name_field two_selected ++ "_") ++ "000_INST").
Proof.
  split; [reflexivity |].
  apply (process_asks_for_the_same_names (H := Toy.host) two_selected rig_state).
Defined.

Lemma refreshed_dialog_forwards_nothing_witness :
  length (mapping_data (dialog_after (refresh stale_dialog rig_state))) = 11
  /\ (forall s p,
        In (s, p) (mapping_data (dialog_after (refresh stale_dialog rig_state))) ->
        get_valid_value p = Some EmptyString)
  /\ attribute_mapping (mapping_data (dialog_after (refresh stale_dialog rig_state))) = [].
Proof.
  split; [reflexivity |].
  apply (refreshed_dialog_forwards_nothing (H := Toy.host) stale_dialog rig_state).
Defined.

Lemma refresh_builds_the_pickers_witness :
  mapping_data (dialog_after (refresh stale_dialog rig_state))
  = map (fun source =>
           (source, {| items := (EmptyString :: DEFAULT_TARGETS ++ ["radiusPP"; "index"])%list;
                       currentText := EmptyString |}))
      (INSTANCER_PP_ATTRIBUTES "general" ++ INSTANCER_PP_ATTRIBUTES "rotation")%list
  /\ map objectName (live_widgets (dialog_after (refresh stale_dialog rig_state)))
     = ["general"; "rotation"]
  /\ map box_title (live_widgets (dialog_after (refresh stale_dialog rig_state)))
     = ["General"; "Rotation"].
Proof.
  apply (refresh_builds_the_pickers (H := Toy.host) stale_dialog rig_state rig_state
           "asset1" [] ["radiusPP"; "index"]); reflexivity.
Defined.

Definition all_assets_dialog : App :=
  {| from_selection := false; name_field := "rocks";
     mapping_layout := mapping_layout stale_dialog;
     mapping_data := mapping_data stale_dialog;
     selection := ["gone"] |}.

Lemma refresh_stores_the_selection_first_witness :
  fst (fst (refresh all_assets_dialog rig_state)) = Raise none_not_iterable
  /\ selection (dialog_after (refresh all_assets_dialog rig_state))
     = ["asset1"; "bare1"; "asset2"]
  /\ mapping_data (dialog_after (refresh all_assets_dialog rig_state)) = []
  /\ live_widgets (dialog_after (refresh all_assets_dialog rig_state)) = [].
Proof.
  destruct (refresh_stores_the_selection_first (H := Toy.host) all_assets_dialog rig_state)
    as [Hsel Hraise].
  split; [reflexivity |]. split; [rewrite Hsel; reflexivity |].
  apply (Hraise none_not_iterable). reflexivity.
Defined.

Lemma connection_pairs_reads_two_by_two_witness :
  connection_pairs ["inst2.inputHierarchy[0]"; "meshA.matrix";
                    "inst2.inputHierarchy[1]"; "meshB.matrix"]
  = Ok [("meshA.matrix", "inst2.inputHierarchy[0]");
        ("meshB.matrix", "inst2.inputHierarchy[1]")]
  /\ ["inst2.inputHierarchy[0]"; "meshA.matrix"; "inst2.inputHierarchy[1]"; "meshB.matrix"]
     = flat_map (fun c : Connection => [snd c; fst c])
         [("meshA.matrix", "inst2.inputHierarchy[0]");
          ("meshB.matrix", "inst2.inputHierarchy[1]")]
  /\ connection_pairs ["inst2.inputHierarchy[0]"; "meshA.matrix"; "inst2.inputHierarchy[1]"]
     = Raise index_out_of_range.
Proof.
  split; [reflexivity |].
  destruct (connection_pairs_reads_two_by_two
              ["inst2.inputHierarchy[0]"; "meshA.matrix";
               "inst2.inputHierarchy[1]"; "meshB.matrix"]) as (Hback & _ & _).
  destruct (connection_pairs_reads_two_by_two
              ["inst2.inputHierarchy[0]"; "meshA.matrix"; "inst2.inputHierarchy[1]"])
    as (_ & _ & Hodd).
  split; [exact (proj1 (Hback _ eq_refl)) | exact (Hodd eq_refl)].
Defined.

Lemma before_colon_cuts_at_the_first_colon_witness :
  before_colon "radiusPP:float" = "radiusPP"
  /\ before_colon "mass" = "mass"
  /\ forall c, In c (list_ascii_of_string (before_colon "radiusPP:float")) -> c <> ":"%char.
Proof.
  split; [reflexivity |].
  destruct (before_colon_cuts_at_the_first_colon "mass") as (_ & _ & Hsame & _).
  destruct (before_colon_cuts_at_the_first_colon "radiusPP:float") as (Hnone & _).
  split; [| exact Hnone].
  apply Hsame. intros c Hc. simpl in Hc.
  destruct Hc as [<- | [<- | [<- | [<- | []]]]]; discriminate.
Defined.

(** ** The loops over the assets *)

Section AssetLoops.
Context {H : Host}.

Lemma for_enumerate_stops {A} (body : A -> M H unit) (done : list A) :
  forall (start : nat) (a : A) (rest : list A) (st s1 s2 : State H) (e : Exn),
    for_enumerate start done (fun _ x => body x) st = (Ok tt, s1) ->
    body a s1 = (Raise e, s2) ->
    for_enumerate start (done ++ a :: rest) (fun _ x => body x) st = (Raise e, s2).
Proof.
  induction done as [|x r IH]; intros start a rest st s1 s2 e Hdone Hraise;
    cbn [for_enumerate app] in *.
  - injection Hdone as <-. unfold bind. now rewrite Hraise.
  - unfold bind in *. destruct (body x st) as [[[]|e'] s0]; [| discriminate].
    exact (IH _ _ _ _ _ _ _ Hdone Hraise).
Qed.

(** X16: [update_all], [update_selected] and [process] go through their
    assets in order and stop at the first one that raises: the exception
    comes out as it is, from the state in which it was raised, so what was
    done for the assets before stays done and the assets after are not
    touched. *)
Theorem asset_loops_stop_at_the_first_failure :
  forall (done : list string) (a : string) (rest : list string)
         (st s1 s2 : State H) (e : Exn),
    (host_houdini_assets (st_scene st) false = (done ++ a :: rest)%list ->
     for_each done (fun asset => update_asset asset ;;; ret tt) st = (Ok tt, s1) ->
     update_asset a s1 = (Raise e, s2) ->
     update_all st = (Raise e, s2))
    /\ (host_houdini_assets (st_scene st) true = (done ++ a :: rest)%list ->
        for_each done (fun asset => update_asset asset ;;; ret tt) st = (Ok tt, s1) ->
        update_asset a s1 = (Raise e, s2) ->
        update_selected st = (Raise e, s2))
    /\ (forall app replica,
          name_field app <> EmptyString ->
          selection app = (done ++ a :: rest)%list ->
          replica = (fun asset =>
                       asset_mapping <- map_houdini_asset asset ;;
                       replicate (name_field app) asset_mapping
                         (Some (attribute_mapping (mapping_data app))) ;;;
                       ret tt) ->
          for_each done replica st = (Ok tt, s1) ->
          replica a s1 = (Raise e, s2) ->
          process app st = (Raise e, s2)).
Proof.
  intros done a rest st s1 s2 e. split; [| split].
  - intros Hls Hdone Hraise. unfold update_all.
    rewrite (bind_ok _ _ _ _ _ (get_houdini_assets_run false st)), Hls.
    apply (for_enumerate_stops _ done 0 a rest st s1 s2 e Hdone).
    unfold bind. now rewrite Hraise.
  - intros Hls Hdone Hraise. unfold update_selected.
    rewrite (bind_ok _ _ _ _ _ (get_houdini_assets_run true st)), Hls.
    apply (for_enumerate_stops _ done 0 a rest st s1 s2 e Hdone).
    unfold bind. now rewrite Hraise.
  - intros app replica Hname Hsel -> Hdone Hraise. unfold process.
    apply String.eqb_neq in Hname. rewrite Hname, Hsel.
    exact (for_enumerate_stops _ done 0 a rest st s1 s2 e Hdone Hraise).
Qed.
End AssetLoops.

Lemma asset_loops_stop_at_the_first_failure_witness :
  update_all rig_state
  = (Raise none_not_iterable,
     snd (update_asset (H := Toy.host) "asset1" rig_state))
  /\ st_log (snd (update_all rig_state))
     = st_log (snd (update_asset (H := Toy.host) "asset1" rig_state)).
Proof.
  destruct (asset_loops_stop_at_the_first_failure (H := Toy.host)
              ["asset1"] "bare1" ["asset2"] rig_state
              (snd (update_asset (H := Toy.host) "asset1" rig_state))
              (snd (update_asset (H := Toy.host) "asset1" rig_state))
              none_not_iterable) as (Hall & _ & _).
  assert (Hrun : update_all rig_state
                 = (Raise none_not_iterable,
                    snd (update_asset (H := Toy.host) "asset1" rig_state))).
  { apply Hall; reflexivity. }
  split; [exact Hrun | now rewrite Hrun].
Defined.
